(** * chatbot.py: the speech playback controller and its collaborators

    A shallow embedding of [src/chatbot.py]; line numbers are those of
    that file.

    - Python [str] values are lists of Unicode code points.
    - Calls into external libraries (the generation backend, the
      recogniser, the synthesis engine) are parameters: each call either
      returns a value or raises an exception.
    - [SpeechController] runs one foreground thread and the worker
      threads it creates; the threads interleave statement by statement
      over the shared controller object. *)

From Stdlib Require Import String Ascii NArith QArith Lia.
From stdpp Require Import base list.

Open Scope list_scope.

(* ===================================================================== *)
(** ** Python strings *)
(* ===================================================================== *)

Module PyStr.

(** A Python [str] is a sequence of code points. *)
Definition char := N.
Definition str := list char.

(** The code points of an ASCII literal. *)
Fixpoint lit (s : string) : str :=
  match s with
  | EmptyString => []
  | String a s' => N_of_ascii a :: lit s'
  end.

Definition bullet : char := 8226%N.       (* U+2022 *)
Definition dash : char := 45%N.           (* U+002D *)
Definition space : char := 32%N.          (* U+0020 *)

(** [s.startswith(p)] *)
Fixpoint startswith (p s : str) : bool :=
  match p, s with
  | [], _ => true
  | _ :: _, [] => false
  | a :: p', b :: s' => (a =? b)%N && startswith p' s'
  end.

(** [p in s] *)
Fixpoint contains (p s : str) : bool :=
  startswith p s || match s with [] => false | _ :: s' => contains p s' end.

(** [s.replace(old, new)] for a non-empty [old]: one pass from the left,
    occurrences do not overlap; [skip] counts the characters of the
    occurrence being dropped. *)
Fixpoint replace_from (old new : str) (skip : nat) (s : str) : str :=
  match s with
  | [] => []
  | c :: s' =>
      match skip with
      | S k => replace_from old new k s'
      | O => if startswith old s
             then new ++ replace_from old new (length old - 1) s'
             else c :: replace_from old new 0 s'
      end
  end.

(** [s.replace(old, new)]; an empty [old] matches before every character
    and at the end. *)
Definition replace (old new s : str) : str :=
  match old with
  | [] => new ++ flat_map (fun c => c :: new) s
  | _ :: _ => replace_from old new 0 s
  end.

(** [c.isspace()] *)
Definition isspace (c : char) : bool :=
  ((9 <=? c) && (c <=? 13) || (28 <=? c) && (c <=? 32)
   || (c =? 133) || (c =? 160) || (c =? 5760)
   || (8192 <=? c) && (c <=? 8202)
   || (c =? 8232) || (c =? 8233) || (c =? 8239) || (c =? 8287)
   || (c =? 12288))%N.

Fixpoint lstrip (s : str) : str :=
  match s with
  | [] => []
  | c :: s' => if isspace c then lstrip s' else s
  end.

Definition rstrip (s : str) : str := rev (lstrip (rev s)).

(** [s.strip()] *)
Definition strip (s : str) : str := rstrip (lstrip s).

End PyStr.

Import PyStr.

(* ===================================================================== *)
(** ** Exceptions *)
(* ===================================================================== *)

(** The exception classes the program tells apart; each is a subclass of
    [Exception]. *)
Inductive exn_class :=
| WaitTimeoutError
| UnknownValueError
| AttributeError
| OtherError.

(** An exception object: its class and [str(e)]. *)
Record exn := Exn { exn_cls : exn_class; exn_str : str }.

(** The result of a call: a value, or a raised exception. *)
Inductive outcome (A : Type) :=
| Ret (a : A)
| Raise (e : exn).
Arguments Ret {A} a.
Arguments Raise {A} e.

(** [try: body  except Exception as e: handler(e)] *)
Definition try_except {A} (body : outcome A) (handler : exn -> outcome A)
  : outcome A :=
  match body with
  | Ret a => Ret a
  | Raise e => handler e
  end.

Definition obind {A B} (m : outcome A) (k : A -> outcome B) : outcome B :=
  match m with
  | Ret a => k a
  | Raise e => Raise e
  end.

(* ===================================================================== *)
(** ** The language-model client *)
(* ===================================================================== *)

Module Chat.

Record generation_config := {
  max_output_tokens : N;
  temperature : Q;
  top_p : Q
}.

(** [model.generate_content(prompt, generation_config=...)] followed by
    [response.text]: the reply text, or the exception raised. *)
Definition backend := str -> generation_config -> outcome str.

Definition paragraph_prompt (user_input : str) : str :=
  lit "IMPORTANT: Respond in paragraph format ONLY. Never use bullet points, dashes, numbers, "
  ++ lit "or any list formatting. Use complete sentences in a single cohesive paragraph. "
  ++ lit "Query: " ++ user_input ++ [10%N; 10%N] ++ lit "Response:".

Definition config : generation_config :=
  {| max_output_tokens := 250; temperature := 7 # 10; top_p := 9 # 10 |}.

(** [response.text.replace("•", "").replace("- ", "").strip()] *)
Definition clean (text : str) : str :=
  strip (replace [dash; space] [] (replace [bullet] [] text)).

Definition get_chatbot_response (model : backend) (user_input : str)
  : outcome str :=
  try_except
    (obind (model (paragraph_prompt user_input) config)
           (fun text => Ret (clean text)))
    (fun e => Ret (lit "Error: " ++ exn_str e)).

End Chat.

(* ===================================================================== *)
(** ** Speech-to-text capture *)
(* ===================================================================== *)

Module Voice.

(** What the [status] placeholder is asked to show, oldest first. *)
Inductive status_msg :=
| StInfo (m : str)
| StSuccess (m : str)
| StError (m : str)
| StEmpty.

(** Computations that write to the placeholder and may raise. *)
Definition M (A : Type) : Type :=
  list status_msg -> outcome A * list status_msg.

Definition ret {A} (a : A) : M A := fun log => (Ret a, log).

Definition bind {A B} (m : M A) (k : A -> M B) : M B :=
  fun log =>
    match m log with
    | (Ret a, log') => k a log'
    | (Raise e, log') => (Raise e, log')
    end.

Definition call {A} (r : outcome A) : M A := fun log => (r, log).

Definition show (m : status_msg) : M unit := fun log => (Ret tt, log ++ [m]).

(** [try: body  except ...: handler]; what [body] wrote stays written. *)
Definition try_with {A} (body : M A) (handler : exn -> M A) : M A :=
  fun log =>
    match body log with
    | (Ret a, log') => (Ret a, log')
    | (Raise e, log') => handler e log'
    end.

#[local] Instance M_ret : MRet M := @ret.
#[local] Instance M_bind : MBind M := fun A B k m => bind m k.

Section Capture.

(** The microphone and the recogniser. *)
Variable audio : Type.
Variable microphone_enter : outcome unit.
Variable adjust_for_ambient_noise : N -> outcome unit.
Variable listen : N -> N -> outcome audio.
Variable recognize_google : audio -> outcome str.

Definition listening_msg : str :=
  127908%N :: lit " Listening... (Speak now)".
Definition processing_msg : str := 10003%N :: lit " Processing...".
Definition no_speech_msg : str := lit "No speech detected".
Definition not_understood_msg : str := lit "Could not understand audio".

(** The three [except] clauses, lines 152-160. *)
Definition on_error (e : exn) : M (option str) :=
  match exn_cls e with
  | WaitTimeoutError => show (StError no_speech_msg) ;; ret None
  | UnknownValueError => show (StError not_understood_msg) ;; ret None
  | _ => show (StError (lit "Error: " ++ exn_str e)) ;; ret None
  end.

Definition get_voice_input : M (option str) :=
  call microphone_enter ;;
  show (StInfo listening_msg) ;;
  try_with
    (call (adjust_for_ambient_noise 1) ;;
     a ← call (listen 5 35) ;
     show (StSuccess processing_msg) ;;
     text ← call (recognize_google a) ;
     show StEmpty ;;
     ret (Some text))
    on_error.

End Capture.

(** The three failure kinds the specification names, and the [except]
    clause that handles an exception. *)
Inductive failure := NoSpeech | Unintelligible | DeviceError.

Definition failure_of (e : exn) : failure :=
  match exn_cls e with
  | WaitTimeoutError => NoSpeech
  | UnknownValueError => Unintelligible
  | _ => DeviceError
  end.

(** The text the matching [except] clause passes to [status.error]. *)
Definition failure_msg (e : exn) : str :=
  match exn_cls e with
  | WaitTimeoutError => no_speech_msg
  | UnknownValueError => not_understood_msg
  | _ => lit "Error: " ++ exn_str e
  end.

(** What the [try] body computes when nothing is caught. *)
Definition recognised {audio} (adjust_for_ambient_noise : N -> outcome unit)
  (listen : N -> N -> outcome audio) (recognize_google : audio -> outcome str)
  : outcome str :=
  obind (adjust_for_ambient_noise 1%N)
        (fun _ => obind (listen 5%N 35%N) recognize_google).

End Voice.

(* ===================================================================== *)
(** ** The speech playback controller *)
(* ===================================================================== *)

(** The model has one foreground thread, which runs the operations the
    orchestrator invokes one after the other, and the worker threads that
    [speak] creates.  A step of the system is one statement of one thread;
    any thread that can run may take the next step.  The threads share the
    controller's three attributes and nothing else.

    The engine is outside the program: [pyttsx3.init()] hands out a new
    engine or raises, a call on an engine inside the [try] returns or
    raises, and [engine.stop()], which releases the engine, returns;
    [Faults] below has the steps of an engine whose [stop()] raises. *)

Module Speech.

(** Threads and engines are named by numbers: a [threading.Thread] by its
    place in the list of workers, an engine by the order in which
    [pyttsx3.init()] handed it out. *)
Abbreviation tid := nat (only parsing).
Abbreviation handle := nat (only parsing).

(** The attributes of a [SpeechController]. *)
Record controller := Controller {
  engine : option handle;
  speech_thread : option tid;
  is_speaking : bool
}.

(** [SpeechController.__init__] *)
Definition new_controller : controller := Controller None None false.

Definition set_engine (e : option handle) (c : controller) : controller :=
  Controller e (speech_thread c) (is_speaking c).
Definition set_speech_thread (t : option tid) (c : controller) : controller :=
  Controller (engine c) t (is_speaking c).
Definition set_is_speaking (b : bool) (c : controller) : controller :=
  Controller (engine c) (speech_thread c) b.

(** What the threads do to the outside world, oldest first. *)
Inductive event :=
| EvInit (t : tid) (h : handle)          (* [pyttsx3.init()] gave [h] to worker [t] *)
| EvSetProperty (h : handle) (rate : N)  (* [h.setProperty("rate", rate)] *)
| EvSay (h : handle) (text : str)        (* [h.say(text)] *)
| EvRunAndWait (h : handle)              (* [h.runAndWait()] returned *)
| EvStop (h : handle)                    (* [h.stop()]: the engine is released *)
| EvStError (m : str)                    (* [st.error(m)] *)
| EvUncaught (t : option tid) (e : exn). (* [e] left worker [t], or the
                                            foreground operation ([None]) *)

Definition attribute_error (name : string) : exn :=
  Exn AttributeError
      (lit "'NoneType' object has no attribute '" ++ lit name ++ lit "'").

(** *** [cleanup], run by the workers and by the foreground *)

Inductive cleanup_pc :=
| CCheck     (* line 81: [if self.engine:] *)
| CStop      (* line 82: [self.engine.stop()] *)
| CClear.    (* line 83: [self.engine = None] *)

Inductive flow :=
| Next (pc : cleanup_pc)
| Return
| Throw (e : exn).

Definition cleanup_step (pc : cleanup_pc) (c : controller)
  : flow * controller * list event :=
  match pc with
  | CCheck =>
      match engine c with
      | Some _ => (Next CStop, c, [])
      | None => (Return, c, [])
      end
  | CStop =>
      match engine c with
      | Some h => (Next CClear, c, [EvStop h])
      | None => (Throw (attribute_error "stop"), c, [])
      end
  | CClear => (Return, set_engine None c, [])
  end.

(** *** [run_speech], the body of a worker thread *)

Inductive wpc :=
| WNew                      (* created by line 70, not started *)
| WSetFlag                  (* line 54 *)
| WInit                     (* line 55 *)
| WSetRate                  (* line 56 *)
| WSay                      (* line 57 *)
| WRun                      (* line 58 *)
| WExcept (e : exn)         (* line 60 *)
| WCleanup (pc : cleanup_pc) (* line 62 *)
| WClearFlag                (* line 63 *)
| WDone                     (* [run_speech] returned *)
| WCrashed.                 (* an exception left [run_speech] *)

Record worker := Worker { w_text : str; w_pc : wpc }.

Definition finished (p : wpc) : bool :=
  match p with WDone | WCrashed => true | _ => false end.

(** [thread.is_alive()] *)
Definition is_alive (p : wpc) : bool :=
  match p with WNew | WDone | WCrashed => false | _ => true end.

(** A call [self.engine.m(...)] inside the [try]: [r] is the exception the
    engine raises there, if it does. *)
Definition engine_call (m : string) (r : option exn) (ev : handle -> event)
  (next : wpc) (c : controller) : wpc * list event :=
  match engine c with
  | None => (WExcept (attribute_error m), [])
  | Some h =>
      match r with
      | Some e => (WExcept e, [])
      | None => (next, [ev h])
      end
  end.

(** One statement of worker [t]; [nh] is the next engine [pyttsx3.init()]
    hands out.  [None]: the thread is not running. *)
Definition worker_step (t : tid) (r : option exn) (w : worker)
  (c : controller) (nh : handle)
  : option (wpc * controller * handle * list event) :=
  match w_pc w with
  | WNew | WDone | WCrashed => None
  | WSetFlag => Some (WInit, set_is_speaking true c, nh, [])
  | WInit =>
      match r with
      | Some e => Some (WExcept e, c, nh, [])
      | None => Some (WSetRate, set_engine (Some nh) c, S nh, [EvInit t nh])
      end
  | WSetRate =>
      let '(p, evs) :=
        engine_call "setProperty" r (fun h => EvSetProperty h 150) WSay c in
      Some (p, c, nh, evs)
  | WSay =>
      let '(p, evs) :=
        engine_call "say" r (fun h => EvSay h (w_text w)) WRun c in
      Some (p, c, nh, evs)
  | WRun =>
      let '(p, evs) :=
        engine_call "runAndWait" r EvRunAndWait (WCleanup CCheck) c in
      Some (p, c, nh, evs)
  | WExcept e =>
      Some (WCleanup CCheck, c, nh,
            [EvStError (lit "Speech synthesis error: " ++ exn_str e)])
  | WCleanup pc =>
      match cleanup_step pc c with
      | (Next pc', c', evs) => Some (WCleanup pc', c', nh, evs)
      | (Return, c', evs) => Some (WClearFlag, c', nh, evs)
      | (Throw e, c', evs) =>
          Some (WCrashed, c', nh, evs ++ [EvUncaught (Some t) e])
      end
  | WClearFlag => Some (WDone, set_is_speaking false c, nh, [])
  end.

(** *** The foreground thread: [speak], [stop], [reset_app] *)

(** The orchestrator's session variables that [reset_app] writes. *)
Record session := Session {
  chat_response : str;
  user_input : str;
  ss_is_speaking : bool;
  input_text_key : N
}.

Inductive fpc :=
| FIdle                         (* between operations *)
| FSpeakCheck (text : str)      (* line 66 *)
| FSpeakJoin (text : str)       (* line 67 *)
| FSpeakCreate (text : str)     (* line 70 *)
| FSpeakStart                   (* line 71 *)
| FReset                        (* lines 178-181 *)
| FStopCheck                    (* line 75 *)
| FCleanup (pc : cleanup_pc)    (* line 76 *)
| FStopClear.                   (* line 77 *)

Definition thread_alive (ws : list worker) (t : tid) : bool :=
  match ws !! t with
  | Some w => is_alive (w_pc w)
  | None => false
  end.

(** One statement of the foreground thread.  [None]: it is idle, or
    blocked in [join]. *)
Definition fg_step (p : fpc) (c : controller) (ss : session)
  (ws : list worker)
  : option (fpc * controller * session * list worker * list event) :=
  match p with
  | FIdle => None
  | FSpeakCheck text =>
      match speech_thread c with
      | Some t =>
          if thread_alive ws t
          then Some (FSpeakJoin text, c, ss, ws, [])
          else Some (FSpeakCreate text, c, ss, ws, [])
      | None => Some (FSpeakCreate text, c, ss, ws, [])
      end
  | FSpeakJoin text =>
      match speech_thread c with
      | Some t =>
          if thread_alive ws t then None
          else Some (FSpeakCreate text, c, ss, ws, [])
      | None =>
          Some (FIdle, c, ss, ws, [EvUncaught None (attribute_error "join")])
      end
  | FSpeakCreate text =>
      Some (FSpeakStart, set_speech_thread (Some (length ws)) c, ss,
            ws ++ [Worker text WNew], [])
  | FSpeakStart =>
      match speech_thread c with
      | Some t =>
          match ws !! t with
          | Some (Worker text WNew) =>
              Some (FIdle, c, ss, <[t := Worker text WSetFlag]> ws, [])
          | _ =>
              Some (FIdle, c, ss, ws,
                    [EvUncaught None
                       (Exn OtherError (lit "threads can only be started once"))])
          end
      | None =>
          Some (FIdle, c, ss, ws, [EvUncaught None (attribute_error "start")])
      end
  | FReset =>
      Some (FStopCheck, c,
            Session [] [] false (input_text_key ss + 1), ws, [])
  | FStopCheck =>
      if is_speaking c
      then Some (FCleanup CCheck, c, ss, ws, [])
      else Some (FIdle, c, ss, ws, [])
  | FCleanup pc =>
      match cleanup_step pc c with
      | (Next pc', c', evs) => Some (FCleanup pc', c', ss, ws, evs)
      | (Return, c', evs) => Some (FStopClear, c', ss, ws, evs)
      | (Throw e, c', evs) =>
          Some (FIdle, c', ss, ws, evs ++ [EvUncaught None e])
      end
  | FStopClear => Some (FIdle, set_is_speaking false c, ss, ws, [])
  end.

(** *** The whole system *)

Record state := State {
  ctl : controller;
  sess : session;
  fg : fpc;
  workers : list worker;
  next_handle : handle;
  trace : list event
}.

Definition new_session : session := Session [] [] false 0.

Definition initial : state :=
  State new_controller new_session FIdle [] 0 [].

(** The operations the orchestrator invokes. *)
Inductive op :=
| OpSpeak (text : str)     (* [speech_controller.speak(text)] *)
| OpStop                   (* [speech_controller.stop()] *)
| OpReset.                 (* [reset_app()] *)

Definition entry (o : op) : fpc :=
  match o with
  | OpSpeak text => FSpeakCheck text
  | OpStop => FStopCheck
  | OpReset => FReset
  end.

(** What happens next: the idle foreground is given an operation, the
    foreground runs a statement, or worker [t] runs one. *)
Inductive label :=
| LCall (o : op)
| LFg
| LWk (t : tid) (r : option exn).

Definition exec (l : label) (s : state) : option state :=
  match l with
  | LCall o =>
      match fg s with
      | FIdle =>
          Some (State (ctl s) (sess s) (entry o) (workers s)
                      (next_handle s) (trace s))
      | _ => None
      end
  | LFg =>
      match fg_step (fg s) (ctl s) (sess s) (workers s) with
      | Some (p, c, ss, ws, evs) =>
          Some (State c ss p ws (next_handle s) (trace s ++ evs))
      | None => None
      end
  | LWk t r =>
      match workers s !! t with
      | Some w =>
          match worker_step t r w (ctl s) (next_handle s) with
          | Some (p, c, nh, evs) =>
              Some (State c (sess s) (fg s)
                          (<[t := Worker (w_text w) p]> (workers s))
                          nh (trace s ++ evs))
          | None => None
          end
      | None => None
      end
  end.

(** A schedule, run from the left. *)
Fixpoint run (ls : list label) (s : state) : option state :=
  match ls with
  | [] => Some s
  | l :: ls' =>
      match exec l s with
      | Some s' => run ls' s'
      | None => None
      end
  end.

Inductive reachable : state -> Prop :=
| reach_initial : reachable initial
| reach_step l s s' : reachable s -> exec l s = Some s' -> reachable s'.

(** *** Engines *)

Definition is_stop (h : handle) (e : event) : bool :=
  match e with EvStop h' => Nat.eqb h h' | _ => false end.

(** The engines [pyttsx3.init()] handed out. *)
Fixpoint acquired (tr : list event) : list handle :=
  match tr with
  | [] => []
  | EvInit _ h :: tr' => h :: acquired tr'
  | _ :: tr' => acquired tr'
  end.

(** How many times [h.stop()] was called. *)
Definition releases (h : handle) (tr : list event) : nat :=
  length (List.filter (is_stop h) tr).

(** The engines handed out and never stopped. *)
Definition held (tr : list event) : list handle :=
  List.filter (fun h => Nat.eqb (releases h tr) 0) (acquired tr).

(** The engines handed to worker [t]. *)
Fixpoint acquired_by (t : tid) (tr : list event) : list handle :=
  match tr with
  | [] => []
  | EvInit t' h :: tr' =>
      if Nat.eqb t t' then h :: acquired_by t tr' else acquired_by t tr'
  | _ :: tr' => acquired_by t tr'
  end.

(** *** Running one thread on its own *)

(** The foreground runs until it is idle again (or blocked). *)
Fixpoint run_fg (fuel : nat) (s : state) : state :=
  match fuel with
  | O => s
  | S n =>
      match exec LFg s with
      | Some s' => run_fg n s'
      | None => s
      end
  end.

(** An operation invoked and run to its end with no worker statement in
    between; no operation has more than six statements. *)
Definition perform (o : op) (s : state) : option state :=
  match exec (LCall o) s with
  | Some s' => Some (run_fg 6 s')
  | None => None
  end.

(** Worker [t] runs until it has finished; [rs] says what each statement's
    engine call raises. *)
Fixpoint run_worker (t : tid) (rs : list (option exn)) (fuel : nat)
  (s : state) : state :=
  match fuel with
  | O => s
  | S n =>
      match exec (LWk t (hd None rs)) s with
      | Some s' => run_worker t (tl rs) n s'
      | None => s
      end
  end.

Definition uncaught (e : event) : bool :=
  match e with EvUncaught _ _ => true | _ => false end.

(** An event that neither hands out nor stops an engine. *)
Definition quiet (e : event) : bool :=
  match e with EvInit _ _ | EvStop _ => false | _ => true end.

(** [run_speech] on its own, as it acts on the controller: the statement
    reached, the controller, the next engine and the events, after at
    most [fuel] statements of a worker for [text]. *)
Fixpoint run_speech (t : nat) (text : str) (rs : list (option exn))
  (fuel : nat) (p : wpc) (c : controller) (nh : nat)
  : wpc * controller * nat * list event :=
  match fuel with
  | O => (p, c, nh, [])
  | S n =>
      match worker_step t (hd None rs) (Worker text p) c nh with
      | Some (p', c', nh', evs) =>
          let '(p'', c'', nh'', evs') :=
            run_speech t text (tl rs) n p' c' nh' in
          (p'', c'', nh'', evs ++ evs')
      | None => (p, c, nh, [])
      end
  end.

(** Inside the [try] of [run_speech], or in its handler (lines 54-60). *)
Definition in_try (p : wpc) : bool :=
  match p with
  | WSetFlag | WInit | WSetRate | WSay | WRun | WExcept _ => true
  | _ => false
  end.

(** Inside [stop] (lines 75-77, with [cleanup]). *)
Definition in_stop (p : fpc) : bool :=
  match p with
  | FStopCheck | FCleanup _ | FStopClear => true
  | _ => false
  end.

(** The statements of [speak], and the idle foreground. *)
Definition in_speak (p : fpc) : bool :=
  match p with
  | FIdle | FSpeakCheck _ | FSpeakJoin _ | FSpeakCreate _ | FSpeakStart => true
  | _ => false
  end.

(** *** Schedules *)

(** [speak("hi")] up to its return; the worker has not run yet. *)
Definition one_speak : list label :=
  [LCall (OpSpeak (lit "hi")); LFg; LFg; LFg].

(** [speak("hi")], then [stop()] while [runAndWait] is blocking: the
    foreground passes line 81 and calls [engine.stop()] (line 82); the
    worker's [runAndWait] returns and its [finally] runs lines 81 and 82
    before the foreground reaches line 83. *)
Definition stop_meets_cleanup : list label :=
  one_speak ++
  [LWk 0 None; LWk 0 None; LWk 0 None; LWk 0 None;
   LCall OpStop; LFg; LFg; LFg;
   LWk 0 None; LWk 0 None; LWk 0 None;
   LFg; LWk 0 None; LFg; LWk 0 None].


(** *** The invariant of the reachable states *)

(** Where the newest worker stands; [WDone] when there is none yet. *)
Definition cur (ws : list worker) : wpc :=
  match last ws with
  | Some w => w_pc w
  | None => WDone
  end.

(** Past line 55. *)
Definition past_init (p : wpc) : bool :=
  match p with WNew | WSetFlag | WInit => false | _ => true end.

(** Between line 55 and the end of [cleanup]. *)
Definition mid (p : wpc) : bool :=
  match p with
  | WSetRate | WSay | WRun | WExcept _ | WCleanup _ => true
  | _ => false
  end.

Record Inv (s : state) : Prop := {
  inv_old : forall t w, workers s !! t = Some w ->
      S t < length (workers s) -> finished (w_pc w) = true;
  inv_ref : match speech_thread (ctl s) with
            | Some t => S t = length (workers s)
            | None => workers s = []
            end;
  inv_create : forall text, fg s = FSpeakCreate text ->
      finished (cur (workers s)) = true;
  inv_start : fg s = FSpeakStart <-> cur (workers s) = WNew;
  inv_fclean : fg s = FCleanup CStop \/ fg s = FCleanup CClear ->
      past_init (cur (workers s)) = true;
  inv_engine : engine (ctl s) <> None -> mid (cur (workers s)) = true;
  inv_held : held (trace s) = [] \/
      exists h, held (trace s) = [h] /\ engine (ctl s) = Some h;
  inv_fclear : fg s = FCleanup CClear -> held (trace s) = [];
  inv_wclear : cur (workers s) = WCleanup CClear -> held (trace s) = [];
  inv_fresh_engine : forall h, engine (ctl s) = Some h -> h < next_handle s;
  inv_fresh_stop : forall h, releases h (trace s) <> 0 -> h < next_handle s;
  inv_owner : forall t h, In h (acquired_by t (trace s)) ->
      S t < length (workers s) -> releases h (trace s) <> 0
}.

End Speech.

(* ===================================================================== *)
(** ** The controller at rest *)
(* ===================================================================== *)

Module Quiescent.
Import Speech.

End Quiescent.

(* ===================================================================== *)
(** ** An engine whose [stop()] raises *)
(* ===================================================================== *)

(** The steps above take [engine.stop()] to return.  Here it may raise,
    as any other call on the engine: the worker's [finally] (line 62) is
    outside the [try], so what line 82 raises there leaves [cleanup]
    before line 83 and [run_speech] before line 63. *)

Module Faults.

Import Speech.

(** [cleanup], where [r] is what [engine.stop()] raises on line 82, if it
    does; nothing is released then. *)
Definition cleanup_step_r (r : option exn) (pc : cleanup_pc) (c : controller)
  : flow * controller * list event :=
  match pc, engine c, r with
  | CStop, Some _, Some e => (Throw e, c, [])
  | _, _, _ => cleanup_step pc c
  end.

(** One statement of worker [t], where [r] is what the engine call of the
    statement raises, that of line 82 included. *)
Definition worker_step_r (t : tid) (r : option exn) (w : worker)
  (c : controller) (nh : handle)
  : option (wpc * controller * handle * list event) :=
  match w_pc w with
  | WCleanup pc =>
      match cleanup_step_r r pc c with
      | (Next pc', c', evs) => Some (WCleanup pc', c', nh, evs)
      | (Return, c', evs) => Some (WClearFlag, c', nh, evs)
      | (Throw e, c', evs) =>
          Some (WCrashed, c', nh, evs ++ [EvUncaught (Some t) e])
      end
  | _ => worker_step t r w c nh
  end.

(** [run_speech] on its own with such an engine. *)
Fixpoint run_speech_r (t : nat) (text : str) (rs : list (option exn))
  (fuel : nat) (p : wpc) (c : controller) (nh : nat)
  : wpc * controller * nat * list event :=
  match fuel with
  | O => (p, c, nh, [])
  | S n =>
      match worker_step_r t (hd None rs) (Worker text p) c nh with
      | Some (p', c', nh', evs) =>
          let '(p'', c'', nh'', evs') :=
            run_speech_r t text (tl rs) n p' c' nh' in
          (p'', c'', nh'', evs ++ evs')
      | None => (p, c, nh, [])
      end
  end.

(** What the engine raises, statement by statement, in a session that
    plays to the end and whose [engine.stop()] then raises [e]. *)
Definition stop_raises (e : exn) : list (option exn) :=
  [None; None; None; None; None; None; Some e].

(** The same where [runAndWait] has raised [e1] before. *)
Definition run_and_stop_raise (e1 e : exn) : list (option exn) :=
  [None; None; None; None; Some e1; None; None; Some e].

End Faults.

(* ===================================================================== *)
(** ** Schedules of the defects *)
(* ===================================================================== *)

Module Scenarios.

Import Speech.


(** [speak("hi")], whose worker has run line 54 and is on line 55. *)
Definition starting : list label := one_speak ++ [LWk 0 None].

(** [speak("hi")], whose worker has run lines 54 to 57 and is on
    line 58. *)
Definition playing : list label :=
  one_speak ++ [LWk 0 None; LWk 0 None; LWk 0 None; LWk 0 None].

(** [stop()] passes lines 75 and 81; [runAndWait] returns and the
    worker's [finally] runs lines 81 to 83; [stop()] reaches line 82. *)
Definition stop_meets_finally : list label :=
  [LCall OpStop; LFg; LFg;
   LWk 0 None; LWk 0 None; LWk 0 None; LWk 0 None;
   LFg].

(** A schedule of [reset_app] as a schedule of [stop]: the statement of
    the foreground that writes the session variables is left out. *)
Fixpoint without_first_fg (ls : list label) : list label :=
  match ls with
  | [] => []
  | LFg :: ls' => ls'
  | l :: ls' => l :: without_first_fg ls'
  end.

(** [reset_app] run statement by statement while the worker is on
    line 58, the worker's [finally] after it. *)
Definition reset_while_playing : list label :=
  [LFg; LFg; LFg; LFg; LWk 0 None; LFg; LFg; LWk 0 None; LWk 0 None].

End Scenarios.

(* ===================================================================== *)
(** ** States up to the session variables *)
(* ===================================================================== *)

Module Frame.
Import Speech.
(** Two states of the system that differ at most in the orchestrator's
    session variables. *)
Definition same_controller (s1 s2 : state) : Prop :=
  ctl s1 = ctl s2 /\ fg s1 = fg s2 /\ workers s1 = workers s2
  /\ next_handle s1 = next_handle s2 /\ trace s1 = trace s2.
End Frame.

(* ===================================================================== *)
(** ** The Streamlit script *)
(* ===================================================================== *)

(** One run of the script, lines 85-87 and 165-262, from the values its
    widgets return.  The script reads and writes [st.session_state], calls
    the controller, the language-model client and the capture routine,
    and renders; what it renders and the controller calls it makes are
    logged in order.  Containers that only lay out the page (form,
    columns, spinner) are left out. *)

Module App.

Import Speech.

Inductive mode := Text | Voice.

(** [st.session_state]: the mode of the last run ([None] in a new
    session) and the four variables [reset_app] writes.  The controller
    it also holds is the one of [Speech]. *)
Record session_state := SessionState { current_mode : option mode; vars : session }.

(** [mode != st.session_state.current_mode] *)
Definition mode_differs (m : mode) (c : option mode) : bool :=
  match m, c with
  | Text, Some Text | Voice, Some Voice => false
  | _, _ => true
  end.

(** The truth value of a string. *)
Definition truthy (s : str) : bool :=
  match s with [] => false | _ :: _ => true end.

Inductive widget :=
| Radio                  (* line 185 *)
| ResetAll               (* line 193 *)
| TextInput (key : N)    (* line 203, key [text_input_<key>] *)
| Send                   (* line 211 *)
| ClearInput             (* line 213 *)
| StartRecording         (* line 228 *)
| SpeakResponse          (* line 248 *)
| StopSpeaking.          (* line 253 *)

Inductive effect :=
| NewController                  (* line 87 *)
| Title (s : str)
| Caption (s : str)
| Divider
| Markdown (s : str)
| Render (w : widget)
| Status (m : Voice.status_msg)  (* the placeholder of [get_voice_input] *)
| Call (o : op).                 (* [speech_controller.speak] / [.stop] *)

(** What the widgets return in one run. *)
Record widgets := Widgets {
  radio : mode;
  reset_all : bool;
  text_input : str;
  send : bool;
  clear_input : bool;
  start_recording : bool;
  speak_response : bool;
  stop_speaking : bool
}.

(** What is outside the script in one run; [controller_call k o] is the
    result of the call [o] when [k] controller calls were made before it
    in this run. *)
Record env := Env {
  model : Chat.backend;
  audio : Type;
  microphone_enter : outcome unit;
  adjust_for_ambient_noise : N -> outcome unit;
  listen : N -> N -> outcome audio;
  recognize_google : audio -> outcome str;
  controller_call : nat -> op -> outcome unit
}.

(** A run stops early at [st.rerun()] or at an uncaught exception. *)
Inductive halt := Rerun | Crash (e : exn).

Inductive res (A : Type) :=
| Go (a : A)
| Halt (h : halt).
Arguments Go {A} a.
Arguments Halt {A} h.

Record world := World { store : session_state; out : list effect }.

Definition Script (A : Type) : Type := world -> res A * world.

Definition ret {A} (a : A) : Script A := fun w => (Go a, w).

Definition bind {A B} (m : Script A) (k : A -> Script B) : Script B :=
  fun w =>
    match m w with
    | (Go a, w') => k a w'
    | (Halt h, w') => (Halt h, w')
    end.

#[export] Instance Script_ret : MRet Script := @ret.
#[export] Instance Script_bind : MBind Script := fun A B k m => bind m k.

Definition get : Script session_state := fun w => (Go (store w), w).

Definition emit (e : effect) : Script unit :=
  fun w => (Go tt, World (store w) (out w ++ [e])).

Definition set_vars (f : session -> session) : Script unit :=
  fun w =>
    (Go tt, World (SessionState (current_mode (store w)) (f (vars (store w)))) (out w)).

Definition set_mode (m : mode) : Script unit :=
  fun w => (Go tt, World (SessionState (Some m) (vars (store w))) (out w)).

Definition set_chat_response (r : str) : Script unit :=
  set_vars (fun v => Session r (user_input v) (ss_is_speaking v)
                             (input_text_key v)).
Definition set_user_input (u : str) : Script unit :=
  set_vars (fun v => Session (chat_response v) u (ss_is_speaking v)
                             (input_text_key v)).
Definition set_is_speaking (b : bool) : Script unit :=
  set_vars (fun v => Session (chat_response v) (user_input v) b
                             (input_text_key v)).
Definition bump_key : Script unit :=
  set_vars (fun v => Session (chat_response v) (user_input v)
                             (ss_is_speaking v) (input_text_key v + 1)).

(** [st.rerun()] *)
Definition rerun : Script unit := fun w => (Halt Rerun, w).

(** A call that may raise; nothing in the script catches it. *)
Definition lift {A} (r : outcome A) : Script A :=
  fun w =>
    match r with
    | Ret a => (Go a, w)
    | Raise e => (Halt (Crash e), w)
    end.

Definition is_call (e : effect) : bool :=
  match e with Call _ => true | _ => false end.

(** A call of the controller. *)
Definition controller (e : env) (o : op) : Script unit :=
  fun w =>
    lift (controller_call e (length (List.filter is_call (out w))) o)
         (World (store w) (out w ++ [Call o])).

Definition when (b : bool) (m : Script unit) : Script unit :=
  if b then m else ret tt.

(** [reset_app], lines 176-182 *)
Definition reset_app (e : env) : Script unit :=
  set_chat_response [] ;;
  set_user_input [] ;;
  set_is_speaking false ;;
  bump_key ;;
  controller e OpStop.

(** Lines 216-218, and again 231-233. *)
Definition answer (e : env) (text : str) : Script unit :=
  set_user_input text ;;
  r ← lift (Chat.get_chatbot_response (model e) text) ;
  set_chat_response r.

(** [get_voice_input()], with what it showed. *)
Definition voice (e : env) : Script (option str) :=
  fun w =>
    let '(r, log) :=
      Voice.get_voice_input (audio e) (microphone_enter e)
        (adjust_for_ambient_noise e) (listen e) (recognize_google e) [] in
    lift r (World (store w) (out w ++ map Status log)).

Definition title_text : str := 129302%N :: lit " AI Voice Assistant".
Definition caption_text : str :=
  lit "Switch between text and voice input modes".
Definition footer_text : str :=
  lit "Note: Voice mode requires microphone access".

(** Lines 185-190: the mode selection. *)
Definition select_mode (w : widgets) (e : env) : Script unit :=
  emit (Render Radio) ;;
  a ← get ;
  when (mode_differs (radio w) (current_mode a))
       (set_mode (radio w) ;; reset_app e).

(** Lines 193-195: the global reset button. *)
Definition reset_button (w : widgets) (e : env) : Script unit :=
  emit (Render ResetAll) ;;
  when (reset_all w) (reset_app e ;; rerun).

(** Lines 200-222: text input mode. *)
Definition text_mode (w : widgets) (e : env) : Script unit :=
  a ← get ;
  emit (Render (TextInput (input_text_key (vars a)))) ;;
  emit (Render Send) ;;
  emit (Render ClearInput) ;;
  when (send w && truthy (text_input w)) (answer e (text_input w)) ;;
  when (clear_input w) (bump_key ;; rerun).

(** Lines 227-233: voice input mode. *)
Definition voice_mode (w : widgets) (e : env) : Script unit :=
  emit (Render StartRecording) ;;
  when (start_recording w)
       (u ← voice e ;
        match u with
        | Some text => when (truthy text) (answer e text)
        | None => ret tt
        end).

(** Lines 238-240: the query. *)
Definition show_query : Script unit :=
  a ← get ;
  when (truthy (user_input (vars a)))
       (emit Divider ;;
        emit (Markdown (lit "**You:** " ++ user_input (vars a)))).

(** Lines 242-256: the response and the speech controls. *)
Definition show_response (w : widgets) (e : env) : Script unit :=
  a ← get ;
  when (truthy (chat_response (vars a)))
       (emit (Markdown (lit "**Assistant:** " ++ chat_response (vars a))) ;;
        emit (Render SpeakResponse) ;;
        when (speak_response w)
             (a ← get ;
              controller e (OpSpeak (chat_response (vars a))) ;;
              set_is_speaking true) ;;
        a ← get ;
        when (ss_is_speaking (vars a))
             (emit (Render StopSpeaking) ;;
              when (stop_speaking w)
                   (controller e OpStop ;;
                    set_is_speaking false ;;
                    rerun))).

(** Lines 261-262 *)
Definition footer : Script unit :=
  emit Divider ;;
  emit (Caption footer_text).

(** Lines 185-262. *)
Definition script (w : widgets) (e : env) : Script unit :=
  select_mode w e ;;
  reset_button w e ;;
  match radio w with
  | Text => text_mode w e
  | Voice => voice_mode w e
  end ;;
  show_query ;;
  show_response w e ;;
  footer.

(** Lines 85-87 and 165-174: what a run finds, or sets up in a new
    session, before line 185. *)
Definition start (s : option session_state) : world :=
  match s with
  | None =>
      World (SessionState None new_session)
            [NewController; Title title_text; Caption caption_text]
  | Some a => World a [Title title_text; Caption caption_text]
  end.

(** One run of the script. *)
Definition run_script (w : widgets) (e : env) (s : option session_state)
  : res unit * world :=
  script w e (start s).

(** The runs of a session, each from the session state the one before
    left; the log of every run, oldest first. *)
Fixpoint run_session (rs : list (widgets * env)) (s : option session_state)
  : option session_state * list (list effect) :=
  match rs with
  | [] => (s, [])
  | (w, e) :: rs' =>
      let '(_, w') := run_script w e s in
      let '(s', logs) := run_session rs' (Some (store w')) in
      (s', out w' :: logs)
  end.

(** The controller calls of a log, in order. *)
Fixpoint calls (l : list effect) : list op :=
  match l with
  | [] => []
  | Call o :: l' => o :: calls l'
  | _ :: l' => calls l'
  end.


(** Empty, or whitespace only. *)
Definition blank (s : str) : bool := forallb isspace s.

(** Empty, or beginning with a character that is not whitespace. *)
Definition trimmed_head (s : str) : Prop :=
  match s with [] => True | c :: _ => isspace c = false end.

Definition speaks_text (o : op) : Prop :=
  match o with OpSpeak text => blank text = false | _ => True end.

(** The response held is trimmed at its head and no [speak] so far was
    given a blank text. *)
Definition sound (w : world) : Prop :=
  trimmed_head (chat_response (vars (store w)))
  /\ Forall speaks_text (calls (out w)).

(** How often a log creates the controller. *)
Fixpoint creations (l : list effect) : nat :=
  match l with
  | [] => 0
  | NewController :: l' => S (creations l')
  | _ :: l' => creations l'
  end.

(** [m] keeps [P], however it ends. *)
Definition keeps {A} (P : world -> Prop) (m : Script A) : Prop :=
  forall w, P w -> P (m w).2.


(** *** A sample environment and sample clicks *)

(** A backend that answers, a recogniser that hears a question, and a
    controller whose calls return. *)
Definition sample_env : env :=
  Env (fun _ _ => Ret (lit " - Hello there  ")) unit (Ret tt)
      (fun _ => Ret tt) (fun _ _ => Ret tt)
      (fun _ => Ret (lit "what time is it")) (fun _ _ => Ret tt).

(** The backend is down. *)
Definition failing_env : env :=
  Env (fun _ _ => Raise (Exn OtherError (lit "503"))) unit (Ret tt)
      (fun _ => Ret tt) (fun _ _ => Ret tt)
      (fun _ => Ret (lit "what time is it")) (fun _ _ => Ret tt).

(** Nothing is heard. *)
Definition silent_env : env :=
  Env (fun _ _ => Ret []) unit (Ret tt) (fun _ => Ret tt)
      (fun _ _ => Raise (Exn WaitTimeoutError [])) (fun _ => Ret [])
      (fun _ _ => Ret tt).

(** No click, in mode [m]. *)
Definition no_click (m : mode) : widgets :=
  Widgets m false [] false false false false false.

(** "Send" with the text [hi]. *)
Definition click_send : widgets :=
  Widgets Text false (lit "hi") true false false false false.

(** "Clear input". *)
Definition click_clear : widgets :=
  Widgets Text false [] false true false false false.

(** "Start Recording". *)
Definition click_record : widgets :=
  Widgets Voice false [] false false true false false.

(** "Speak Response". *)
Definition click_speak : widgets :=
  Widgets Text false (lit "hi") false false false true false.

(** A session state with an answer on the page. *)
Definition answered (m : mode) : session_state :=
  SessionState (Some m) (Session (lit "Hello there") (lit "hi") true 1).

(** "Stop Speaking". *)
Definition click_stop : widgets :=
  Widgets Text false [] false false false false true.

(** "Reset All". *)
Definition click_reset : widgets :=
  Widgets Text true [] false false false false false.

(** "Send" with the text the sample recogniser hears. *)
Definition click_send_question : widgets :=
  Widgets Text false (lit "what time is it") true false false false false.

(** An answer on the page that was not spoken yet. *)
Definition unspoken : session_state :=
  SessionState (Some Text) (Session (lit "Hello there") (lit "hi") false 1).

End App.


(* ===================================================================== *)
(** ** Facts about Python strings *)
(* ===================================================================== *)

Section StrFacts.

Implicit Types s p old : str.
Implicit Types c : char.

Lemma startswith_app p s s' :
  startswith p s = true -> startswith p (s ++ s') = true.
Proof.
  revert s; induction p as [|a p IH]; intros [|b s]; simpl; try done.
  intros [-> ?]%andb_prop. by rewrite IH.
Qed.

Lemma contains_app_l p s s' :
  contains p s = true -> contains p (s ++ s') = true.
Proof.
  induction s as [|b s IH].
  - destruct p; [|done]. by destruct s'.
  - cbn [contains app]. intros [H|H]%orb_prop.
    + change (b :: s ++ s') with ((b :: s) ++ s').
      by rewrite (startswith_app _ _ _ H).
    + rewrite (IH H). apply orb_true_r.
Qed.

Lemma contains_cons p c s :
  contains p s = true -> contains p (c :: s) = true.
Proof. intros H. cbn [contains]. rewrite H. apply orb_true_r. Qed.

Lemma contains_single c s : contains [c] s = true <-> In c s.
Proof.
  induction s as [|b s IH]; cbn [contains startswith In].
  - split; [done | tauto].
  - rewrite orb_true_iff, andb_true_r, N.eqb_eq, IH.
    split; (intros [?|?]; [left | right]); done.
Qed.

(** The unfolding of [replace] that the Python documentation describes:
    at an occurrence of [old] emit [new] and go on behind it, otherwise
    keep the character. *)
Lemma replace_from_skip old new k s :
  replace_from old new k s = replace_from old new 0 (drop k s).
Proof.
  revert k; induction s as [|c s IH]; intros [|k]; try done.
  cbn [replace_from drop]. apply IH.
Qed.

Lemma replace_cons a old new c s :
  replace (a :: old) new (c :: s) =
    if startswith (a :: old) (c :: s)
    then new ++ replace (a :: old) new (drop (length (a :: old)) (c :: s))
    else c :: replace (a :: old) new s.
Proof.
  unfold replace. cbn [replace_from].
  destruct (startswith (a :: old) (c :: s)); [|done].
  f_equal. rewrite replace_from_skip. cbn [length drop].
  by rewrite Nat.sub_succ, Nat.sub_0_r.
Qed.

(** Deleting occurrences leaves only characters that were there. *)
Lemma replace_from_delete_In old k s c :
  In c (replace_from old [] k s) -> In c s.
Proof.
  revert k; induction s as [|b s IH]; intros k; [done|].
  cbn [replace_from]. destruct k as [|k].
  - destruct (startswith old (b :: s)); cbn [app In].
    + intros H. right. eapply IH, H.
    + intros [->|H]; [by left | right; eapply IH, H].
  - intros H. right. eapply IH, H.
Qed.

Lemma replace_char_delete c s : ~ In c (replace [c] [] s).
Proof.
  unfold replace. induction s as [|b s IH]; [simpl; tauto|].
  cbn [replace_from startswith length]. rewrite andb_true_r.
  destruct (N.eqb_spec c b) as [->|Hne]; [exact IH|].
  cbn [In]. intros [->|H]; [done | by apply IH].
Qed.

Lemma lstrip_suffix s : exists w, s = w ++ lstrip s.
Proof.
  induction s as [|c s [w Hw]]; [by exists []|].
  cbn [lstrip]. destruct (isspace c).
  - exists (c :: w). cbn [app]. by f_equal.
  - by exists [].
Qed.

Lemma rstrip_prefix s : exists w, s = rstrip s ++ w.
Proof.
  unfold rstrip. destruct (lstrip_suffix (rev s)) as [w Hw].
  exists (rev w). rewrite <- rev_app_distr, <- Hw. by rewrite rev_involutive.
Qed.

Lemma contains_app_r p w s :
  contains p s = true -> contains p (w ++ s) = true.
Proof.
  intros H. induction w as [|c w IH]; [done|].
  cbn [app]. by apply contains_cons.
Qed.

(** [strip] keeps a contiguous piece of the string. *)
Lemma contains_strip p s : contains p (strip s) = true -> contains p s = true.
Proof.
  unfold strip. intros H.
  destruct (lstrip_suffix s) as [w Hw].
  destruct (rstrip_prefix (lstrip s)) as [w' Hw'].
  rewrite Hw. apply contains_app_r. rewrite Hw'. by apply contains_app_l.
Qed.

Lemma In_strip c s : In c (strip s) -> In c s.
Proof. rewrite <- !contains_single. apply contains_strip. Qed.

Lemma contains_tail p c s :
  contains p (c :: s) = false -> contains p s = false.
Proof. cbn [contains]. by intros [_ ?]%orb_false_elim. Qed.

(** Where no two dashes are adjacent, deleting every ["- "] leaves no
    ["- "] behind. *)
Lemma replace_dash_space_clean k s :
  contains [dash; dash] s = false ->
  contains [dash; space] (replace_from [dash; space] [] k s) = false.
Proof.
  revert k; induction s as [|c s IH]; intros k Hdd; [done|].
  pose proof (contains_tail _ _ _ Hdd) as Hdd'.
  cbn [replace_from]. destruct k as [|k]; [|by apply IH].
  destruct (startswith [dash; space] (c :: s)) eqn:Hst;
    cbn [app length Nat.sub]; [by apply IH|].
  cbn [contains]. rewrite (IH 0 Hdd'), orb_false_r.
  cbn [startswith]. destruct (N.eqb_spec dash c) as [<-|]; [|done].
  cbn [andb]. destruct s as [|d s]; [done|].
  cbn [replace_from].
  cbn [contains startswith] in Hdd.
  cbn [startswith] in Hst.
  change (dash =? dash)%N with true in *. cbn [andb] in *.
  rewrite andb_true_r in *.
  apply orb_false_elim in Hdd as [Hd _].
  destruct (startswith [dash; space] (d :: s)) eqn:Hst'.
  - cbn [startswith] in Hst'. by rewrite Hd in Hst'.
  - cbn [app startswith]. by rewrite Hst.
Qed.

End StrFacts.

(* ===================================================================== *)
(** ** The language-model client: results *)
(* ===================================================================== *)

Section ChatFacts.

Import Chat.

Lemma clean_no_bullet text : contains [bullet] (clean text) = false.
Proof.
  apply not_true_is_false. rewrite contains_single. unfold clean.
  intros H%In_strip. unfold replace at 1 in H.
  apply replace_from_delete_In in H. by apply replace_char_delete in H.
Qed.

Lemma clean_no_dash_space text :
  contains [dash; dash] (replace [bullet] [] text) = false ->
  contains [dash; space] (clean text) = false.
Proof.
  intros H. apply not_true_is_false. unfold clean. intros Hc%contains_strip.
  unfold replace at 1 in Hc.
  by rewrite (replace_dash_space_clean 0 _ H) in Hc.
Qed.

(** C7, as stated, fails on both return paths: the single pass over
    ["--  x"] deletes the inner ["- "] and returns ["- x"], and the text
    of an exception is returned as it is. *)
Lemma chat_reply_keeps_marks :
  (get_chatbot_response
     (fun _ _ => Ret ([dash; dash; space; space] ++ lit "x")) (lit "hi")
   = Ret (lit "- x")
   /\ contains [dash; space] (lit "- x") = true)
  /\ (get_chatbot_response
        (fun _ _ => Raise (Exn OtherError (bullet :: lit " quota - exceeded")))
        (lit "hi")
      = Ret (lit "Error: " ++ bullet :: lit " quota - exceeded")
      /\ contains [bullet] (lit "Error: " ++ bullet :: lit " quota - exceeded")
         = true
      /\ contains [dash; space]
           (lit "Error: " ++ bullet :: lit " quota - exceeded") = true).
Proof. repeat split; vm_compute; reflexivity. Qed.

(** C7, amended: a reply of the backend is returned cleaned; the cleaned
    text has no bullet, and no ["- "] either when the reply without its
    bullets has no two adjacent dashes.  An exception is returned as
    ["Error: "] followed by its text, which is not cleaned. *)
Theorem chat_reply_cleaned (model : backend) (user_input : str) :
  match model (paragraph_prompt user_input) config with
  | Ret text =>
      get_chatbot_response model user_input = Ret (clean text)
      /\ contains [bullet] (clean text) = false
      /\ (contains [dash; dash] (replace [bullet] [] text) = false ->
          contains [dash; space] (clean text) = false)
  | Raise e =>
      get_chatbot_response model user_input
      = Ret (lit "Error: " ++ exn_str e)
  end.
Proof.
  unfold get_chatbot_response.
  destruct (model _ _) as [text|e]; cbn [obind try_except]; [|done].
  split; [done|]. split; [apply clean_no_bullet | apply clean_no_dash_space].
Qed.

Lemma chat_reply_cleaned_witness :
  get_chatbot_response
    (fun _ _ => Ret (lit " - first" ++ bullet :: lit " second ")) (lit "hi")
  = Ret (lit "first second")
  /\ contains [dash; space] (lit "first second") = false.
Proof.
  pose proof (chat_reply_cleaned
                (fun _ _ => Ret (lit " - first" ++ bullet :: lit " second "))
                (lit "hi")) as H.
  cbn beta iota in H. destruct H as (H1 & _ & H3).
  split; [exact H1 | exact (H3 eq_refl)].
Defined.

(** C8: [get_chatbot_response] always returns a string; when the
    generation call raises, that string is ["Error: "] followed by the
    text of the exception. *)
Theorem chat_never_raises (model : backend) (user_input : str) :
  exists r, get_chatbot_response model user_input = Ret r
    /\ forall e, model (paragraph_prompt user_input) config = Raise e ->
         r = lit "Error: " ++ exn_str e.
Proof.
  unfold get_chatbot_response.
  destruct (model _ _) as [text|e]; cbn [obind try_except]; eexists;
    (split; [reflexivity|]); intros e' [= <-]; reflexivity.
Qed.

Lemma chat_never_raises_witness :
  get_chatbot_response (fun _ _ => Raise (Exn OtherError (lit "503")))
                       (lit "hi")
  = Ret (lit "Error: 503").
Proof.
  destruct (chat_never_raises
              (fun _ _ => Raise (Exn OtherError (lit "503"))) (lit "hi"))
    as (r & -> & Hr).
  by rewrite (Hr _ eq_refl).
Defined.

End ChatFacts.

(* ===================================================================== *)
(** ** Speech-to-text capture: results *)
(* ===================================================================== *)

Section VoiceFacts.

Import Voice.

(** C9, as stated, fails: a timeout, an unintelligible recording and a
    failed request all make [get_voice_input] return [None]. *)
Lemma voice_failures_return_alike :
  let timed_out := Raise (Exn WaitTimeoutError (lit "listening timed out")) in
  let unknown := Raise (Exn UnknownValueError []) in
  let request := Raise (Exn OtherError (lit "recognition request failed")) in
  (get_voice_input unit (Ret tt) (fun _ => Ret tt)
                   (fun _ _ => timed_out) (fun _ => Ret []) []).1 = Ret None
  /\ (get_voice_input unit (Ret tt) (fun _ => Ret tt)
                      (fun _ _ => Ret tt) (fun _ => unknown) []).1 = Ret None
  /\ (get_voice_input unit (Ret tt) (fun _ => Ret tt)
                      (fun _ _ => Ret tt) (fun _ => request) []).1 = Ret None.
Proof. repeat split. Qed.

Lemma failure_msg_distinct e1 e2 :
  failure_of e1 <> failure_of e2 -> failure_msg e1 <> failure_msg e2.
Proof.
  unfold failure_of, failure_msg.
  destruct (exn_cls e1), (exn_cls e2); intros Hk; try done;
    vm_compute; discriminate.
Qed.

(** What the [except] clauses do with [e], whatever was shown before. *)
Lemma on_error_result e (log : list status_msg) :
  (on_error e log).1 = Ret None
  /\ last (on_error e log).2 = Some (StError (failure_msg e))
  /\ forall e', failure_of e' <> failure_of e ->
       last (on_error e log).2 <> Some (StError (failure_msg e')).
Proof.
  assert ((on_error e log).1 = Ret None
          /\ last (on_error e log).2 = Some (StError (failure_msg e)))
    as [H1 H2].
  { unfold on_error, failure_msg.
    destruct (exn_cls e); cbv [mbind M_bind bind show ret fst snd];
      by rewrite last_snoc. }
  repeat split; [done..|]. intros e' Hk. rewrite H2. intros [= Heq].
  by apply (failure_msg_distinct e' e Hk).
Qed.

(** C9, amended: once the microphone is open, [get_voice_input] returns
    the recognised text on success and [None] on every failure; the
    failure kinds differ only in the last message the status placeholder
    is given. *)
Theorem voice_result_and_status (audio : Type)
    (microphone_enter : outcome unit)
    (adjust_for_ambient_noise : N -> outcome unit)
    (listen : N -> N -> outcome audio)
    (recognize_google : audio -> outcome str) (log : list status_msg) :
  microphone_enter = Ret tt ->
  let res := get_voice_input audio microphone_enter
               adjust_for_ambient_noise listen recognize_google log in
  match recognised adjust_for_ambient_noise listen recognize_google with
  | Ret text =>
      res = (Ret (Some text),
             log ++ [StInfo listening_msg; StSuccess processing_msg; StEmpty])
  | Raise e =>
      res.1 = Ret None
      /\ last res.2 = Some (StError (failure_msg e))
      /\ forall e', failure_of e' <> failure_of e ->
           last res.2 <> Some (StError (failure_msg e'))
  end.
Proof.
  intros ->. unfold recognised, get_voice_input.
  cbv [mbind M_bind bind call show try_with ret obind].
  destruct (adjust_for_ambient_noise 1%N) as [[]|e];
    [|by apply on_error_result].
  destruct (listen 5%N 35%N) as [a|e]; [|by apply on_error_result].
  destruct (recognize_google a) as [text|e]; [|by apply on_error_result].
  by rewrite <- !app_assoc.
Qed.

Lemma voice_result_and_status_witness :
  (get_voice_input unit (Ret tt) (fun _ => Ret tt) (fun _ _ => Ret tt)
                   (fun _ => Raise (Exn UnknownValueError [])) []).1
  = Ret None.
Proof.
  exact (proj1 (voice_result_and_status unit (Ret tt) (fun _ => Ret tt)
                  (fun _ _ => Ret tt)
                  (fun _ => Raise (Exn UnknownValueError [])) [] eq_refl)).
Defined.

End VoiceFacts.

(* ===================================================================== *)
(** ** The speech playback controller: traces and workers *)
(* ===================================================================== *)

Section TraceFacts.

Import Speech.

Implicit Types tr : list event.
Implicit Types h : handle.

Lemma acquired_app tr1 tr2 :
  acquired (tr1 ++ tr2) = acquired tr1 ++ acquired tr2.
Proof.
  induction tr1 as [|[] tr1 IH]; cbn [acquired app]; by rewrite ?IH.
Qed.

Lemma acquired_by_app t tr1 tr2 :
  acquired_by t (tr1 ++ tr2) = acquired_by t tr1 ++ acquired_by t tr2.
Proof.
  induction tr1 as [|[t'| | | | | |] tr1 IH]; cbn [acquired_by app];
    try done.
  destruct (Nat.eqb t t'); cbn [app]; by rewrite IH.
Qed.

Lemma acquired_by_acquired t tr h :
  In h (acquired_by t tr) -> In h (acquired tr).
Proof.
  induction tr as [|[t'| | | | | |] tr IH]; cbn [acquired_by acquired];
    try done.
  destruct (Nat.eqb t t'); cbn [In]; tauto.
Qed.

Lemma releases_app h tr1 tr2 :
  releases h (tr1 ++ tr2) = releases h tr1 + releases h tr2.
Proof. unfold releases. by rewrite List.filter_app, length_app. Qed.

Lemma releases_mono h tr1 tr2 :
  releases h tr1 <> 0 -> releases h (tr1 ++ tr2) <> 0.
Proof. rewrite releases_app. lia. Qed.

Lemma held_In h tr :
  In h (held tr) <-> In h (acquired tr) /\ releases h tr = 0.
Proof. unfold held. by rewrite List.filter_In, Nat.eqb_eq. Qed.

Lemma held_nil_released h tr :
  held tr = [] -> In h (acquired tr) -> releases h tr <> 0.
Proof.
  intros Hh Ha Hr. assert (In h (held tr)) as Hin by by apply held_In.
  by rewrite Hh in Hin.
Qed.

Lemma held_quiet tr e : quiet e = true -> held (tr ++ [e]) = held tr.
Proof.
  intros Hq. unfold held. rewrite acquired_app.
  assert (acquired [e] = []) as -> by by destruct e.
  rewrite app_nil_r. apply List.filter_ext. intros h.
  rewrite releases_app. assert (releases h [e] = 0) as -> by by destruct e.
  by rewrite Nat.add_0_r.
Qed.

Lemma held_init tr t h :
  held tr = [] -> releases h tr = 0 -> held (tr ++ [EvInit t h]) = [h].
Proof.
  intros Hh Hr. unfold held in *. rewrite acquired_app.
  rewrite (List.filter_ext _ (fun h' => Nat.eqb (releases h' tr) 0)).
  - rewrite List.filter_app, Hh. cbn [acquired List.filter]. by rewrite Hr.
  - intros h'. rewrite releases_app. cbn. by rewrite Nat.add_0_r.
Qed.

Lemma releases_stop h : releases h [EvStop h] = 1.
Proof. unfold releases. cbn. by rewrite Nat.eqb_refl. Qed.

Lemma held_stop tr h :
  held tr = [] \/ held tr = [h] -> held (tr ++ [EvStop h]) = [].
Proof.
  intros Hh. destruct (held (tr ++ [EvStop h])) as [|h' l] eqn:He; [done|].
  assert (In h' (held (tr ++ [EvStop h]))) as Hin by (rewrite He; by left).
  apply held_In in Hin as [Ha Hr].
  rewrite acquired_app, app_nil_r in Ha. rewrite releases_app in Hr.
  assert (In h' (held tr)) as Hin by (apply held_In; split; [done | lia]).
  destruct Hh as [Hh|Hh]; rewrite Hh in Hin; [done|].
  destruct Hin as [->|[]]. rewrite releases_stop in Hr. lia.
Qed.

Lemma releases_quiet h tr e :
  quiet e = true -> releases h (tr ++ [e]) = releases h tr.
Proof.
  intros Hq. rewrite releases_app.
  assert (releases h [e] = 0) as -> by by destruct e. lia.
Qed.

Lemma releases_init h tr t h' :
  releases h (tr ++ [EvInit t h']) = releases h tr.
Proof. rewrite releases_app. unfold releases at 2. cbn. lia. Qed.

Lemma releases_stop_ne h h' tr :
  h <> h' -> releases h (tr ++ [EvStop h']) = releases h tr.
Proof.
  intros Hne. rewrite releases_app. unfold releases at 2. cbn.
  apply Nat.eqb_neq in Hne as ->. cbn. lia.
Qed.

Lemma acquired_by_quiet t tr e :
  quiet e = true -> acquired_by t (tr ++ [e]) = acquired_by t tr.
Proof.
  intros Hq. rewrite acquired_by_app.
  assert (acquired_by t [e] = []) as -> by by destruct e.
  apply app_nil_r.
Qed.

Lemma acquired_by_stop t tr h :
  acquired_by t (tr ++ [EvStop h]) = acquired_by t tr.
Proof. rewrite acquired_by_app. apply app_nil_r. Qed.

Lemma acquired_by_init_ne t t' tr h :
  t <> t' -> acquired_by t (tr ++ [EvInit t' h]) = acquired_by t tr.
Proof.
  intros Hne. rewrite acquired_by_app. cbn [acquired_by].
  apply Nat.eqb_neq in Hne as ->. apply app_nil_r.
Qed.

End TraceFacts.

Section WorkerFacts.

Import Speech.

Implicit Types ws : list worker.

Lemma cur_snoc ws w : cur (ws ++ [w]) = w_pc w.
Proof. unfold cur. by rewrite last_snoc. Qed.

Lemma cur_lookup ws t w :
  ws !! t = Some w -> S t = length ws -> cur ws = w_pc w.
Proof.
  intros Hl Hn. unfold cur. rewrite last_lookup, <- Hn. cbn [pred].
  by rewrite Hl.
Qed.

Lemma cur_insert ws t w : S t = length ws -> cur (<[t:=w]> ws) = w_pc w.
Proof.
  intros Hn. apply (cur_lookup _ t); [|by rewrite length_insert].
  apply list_lookup_insert_eq. lia.
Qed.

Lemma thread_alive_cur ws t :
  S t = length ws -> thread_alive ws t = is_alive (cur ws).
Proof.
  intros Hn. unfold thread_alive.
  destruct (ws !! t) as [w|] eqn:Hl.
  - by rewrite (cur_lookup _ _ _ Hl Hn).
  - apply lookup_ge_None in Hl. lia.
Qed.

Lemma running_is_newest s t w :
  Inv s -> workers s !! t = Some w -> finished (w_pc w) = false ->
  S t = length (workers s).
Proof.
  intros HI Hl Hf. pose proof (lookup_lt_Some _ _ _ Hl) as Hlt.
  destruct (decide (S t < length (workers s))) as [Hlt'|]; [|lia].
  rewrite (inv_old _ HI _ _ Hl Hlt') in Hf. done.
Qed.

Lemma old_insert ws t w' :
  S t = length ws ->
  (forall t0 w, ws !! t0 = Some w -> S t0 < length ws ->
                finished (w_pc w) = true) ->
  forall t0 w, <[t:=w']> ws !! t0 = Some w -> S t0 < length ws ->
               finished (w_pc w) = true.
Proof.
  intros Hn H t0 w Hl Hlt. rewrite list_lookup_insert_ne in Hl by lia. eauto.
Qed.

End WorkerFacts.

Arguments Speech.held : simpl never.
Arguments Speech.releases : simpl never.
Arguments Speech.acquired : simpl never.
Arguments Speech.acquired_by : simpl never.
Arguments Speech.cur : simpl never.
Arguments lit : simpl never.

Section Invariant.

Import Speech.

Lemma Inv_initial : Inv initial.
Proof.
  split; cbn; try done; try tauto; intros; lia.
Qed.

Lemma held_engine_none s :
  Inv s -> engine (ctl s) = None -> held (trace s) = [].
Proof.
  intros HI He. destruct (inv_held _ HI) as [|(h & _ & Hh)]; [done|].
  by rewrite He in Hh.
Qed.

Lemma engine_none_unless_mid s :
  Inv s -> mid (cur (workers s)) = false -> engine (ctl s) = None.
Proof.
  intros HI Hm. destruct (engine (ctl s)) eqn:He; [|done].
  rewrite (inv_engine _ HI) in Hm; [done | by rewrite He].
Qed.

Lemma Inv_call o s s' : Inv s -> exec (LCall o) s = Some s' -> Inv s'.
Proof.
  intros HI He. cbn in He. destruct (fg s) eqn:Hfg; try done.
  injection He as <-. destruct HI. split; cbn; try done.
  - by destruct o.
  - split; [by destruct o|]. intros Hc. apply inv_start0 in Hc. congruence.
  - by destruct o as [| |]; intros [|].
  - by destruct o.
Qed.

Lemma finished_not_alive p : is_alive p = false -> p <> WNew -> finished p = true.
Proof. by destruct p. Qed.

Lemma mid_past_init p : mid p = true -> past_init p = true.
Proof. by destruct p. Qed.

Ltac basic :=
  cbn in *; rewrite ?app_nil_r in *;
  try done; try tauto; try congruence; eauto;
  try (intros; lia); try (intuition (congruence || discriminate)).

(** The newest worker has moved. *)
Ltac moved := rewrite ?cur_insert, ?length_insert in * by done.

(** The statement logged nothing about engines. *)
Ltac quiet_step :=
  split; cbn; intros; moved;
  rewrite ?held_quiet, ?releases_quiet, ?acquired_by_quiet in * by done;
  basic.

Lemma Inv_fg s s' : Inv s -> exec LFg s = Some s' -> Inv s'.
Proof.
  intros HI He.
  pose proof (held_engine_none _ HI) as Hhn.
  pose proof (engine_none_unless_mid _ HI) as Hen.
  destruct s as [[e st sp] ss p ws nh tr]. cbn in He.
  destruct HI as [H1 H2 H3 H4 H5 H6 H7 H8 H9 H10 H11 H12]. cbn in *.
  destruct p as [|text|text|text| | | |[]|]; cbn in He; try done.
  - (* line 66 *)
    destruct st as [t|].
    + rewrite (thread_alive_cur _ _ H2) in He.
      destruct (is_alive (cur ws)) eqn:Ha; injection He as <-;
        split; basic.
      intros _ _. apply finished_not_alive; [done|]. intros Hc.
      by apply H4 in Hc.
    + injection He as <-. subst ws. split; basic.
  - (* line 67 *)
    destruct st as [t|].
    + rewrite (thread_alive_cur _ _ H2) in He.
      destruct (is_alive (cur ws)) eqn:Ha; [done|]. injection He as <-.
      split; basic.
      intros _ _. apply finished_not_alive; [done|]. intros Hc.
      by apply H4 in Hc.
    + injection He as <-. subst ws. quiet_step.
  - (* line 70 *)
    injection He as <-. pose proof (H3 _ eq_refl) as Hf.
    assert (e = None) as -> by (apply Hen; by destruct (cur ws)).
    split; cbn; rewrite ?cur_snoc, ?length_app; cbn; basic.
    + intros t w Hl Hlt. rewrite lookup_app_l in Hl by lia.
      destruct (decide (S t < length ws)); [eauto|].
      rewrite <- (cur_lookup ws t w) by (done || lia). done.
    + intros t h Hin Hlt. destruct (decide (S t < length ws)); [eauto|].
      apply held_nil_released; [by apply Hhn|].
      by apply acquired_by_acquired in Hin.
  - (* line 71 *)
    pose proof (proj1 H4 eq_refl) as Hc.
    destruct st as [t|]; [|subst ws; by cbv in Hc].
    destruct (ws !! t) as [[text p]|] eqn:Hl;
      [|apply lookup_ge_None in Hl; lia].
    pose proof (cur_lookup _ _ _ Hl H2) as Hp. rewrite Hc in Hp.
    cbn in Hp. subst p. injection He as <-.
    assert (e = None) as -> by (apply Hen; by rewrite Hc).
    split; cbn; moved; basic.
    by apply old_insert.
  - (* lines 178-181 *)
    injection He as <-. split; basic.
  - (* line 75 *)
    destruct sp; injection He as <-; split; basic.
  - (* line 81 *)
    destruct e as [h|]; injection He as <-; split; basic.
    intros _. by apply mid_past_init, H6.
  - (* line 82 *)
    destruct e as [h|]; injection He as <-.
    + assert (held (tr ++ [EvStop h]) = []) as Hh.
      { apply held_stop. destruct H7 as [|(h' & ? & [= ->])]; auto. }
      split; cbn; rewrite ?Hh; basic.
      * intros h' Hr. destruct (decide (h' = h)) as [->|Hne]; [eauto|].
        rewrite releases_stop_ne in Hr by done. eauto.
      * intros t h' Hin Hlt. rewrite acquired_by_stop in Hin.
        apply releases_mono. eauto.
    + quiet_step.
  - (* line 83 *)
    injection He as <-. split; basic.
  - (* line 77 *)
    injection He as <-. split; basic.
Qed.

Lemma Inv_wk t r s s' : Inv s -> exec (LWk t r) s = Some s' -> Inv s'.
Proof.
  intros HI He.
  pose proof (held_engine_none _ HI) as Hhn.
  pose proof (engine_none_unless_mid _ HI) as Hen.
  pose proof (fun w => running_is_newest s t w HI) as Hn.
  destruct s as [[e st sp] ss p ws nh tr]. cbn in He, Hn.
  destruct (ws !! t) as [[text q]|] eqn:Hl; [|done].
  specialize (Hn _ eq_refl). cbn in Hn.
  destruct HI as [H1 H2 H3 H4 H5 H6 H7 H8 H9 H10 H11 H12]. cbn in *.
  assert (finished q = false) as Hf by (destruct q; done).
  specialize (Hn Hf). pose proof (cur_lookup _ _ _ Hl Hn) as Hc.
  cbn in Hc. rewrite Hc in *.
  pose proof (old_insert ws t) as Hold.
  destruct st as [t0|]; [|by subst ws].
  destruct q as [| | | | | |x|[]| | |]; cbn in He; try done.
  - (* line 54 *)
    injection He as <-.
    split; cbn; moved; basic.
  - (* line 55 *)
    destruct r as [x|]; injection He as <-.
    + split; cbn; moved; basic.
    + assert (held (tr ++ [EvInit t nh]) = [nh]) as Hh.
      { apply held_init; [tauto|]. destruct (releases nh tr) eqn:Hr; [done|].
        assert (nh < nh); [apply H11|]; lia. }
      split; cbn; moved; rewrite ?Hh; basic.
      * intros h [= <-]. lia.
      * intros h Hr. rewrite releases_init in Hr. apply H11 in Hr. lia.
      * intros t1 h Hin Hlt. rewrite acquired_by_init_ne in Hin by lia.
        rewrite releases_init. eauto.
  - (* line 56 *)
    unfold engine_call in He. cbn in He.
    destruct e as [h|], r as [x|]; injection He as <-; quiet_step.
  - (* line 57 *)
    unfold engine_call in He. cbn in He.
    destruct e as [h|], r as [x|]; injection He as <-; quiet_step.
  - (* line 58 *)
    unfold engine_call in He. cbn in He.
    destruct e as [h|], r as [x|]; injection He as <-; quiet_step.
  - (* line 60 *)
    injection He as <-. quiet_step.
  - (* line 81 *)
    destruct e as [h|]; injection He as <-;
      split; cbn; moved; basic.
  - (* line 82 *)
    destruct e as [h|]; injection He as <-.
    + assert (held (tr ++ [EvStop h]) = []) as Hh.
      { apply held_stop. destruct H7 as [|(h' & ? & [= ->])]; auto. }
      split; cbn; moved; rewrite ?Hh; basic.
      * intros h' Hr. destruct (decide (h' = h)) as [->|Hne]; [eauto|].
        rewrite releases_stop_ne in Hr by done. eauto.
      * intros t1 h' Hin Hlt. rewrite acquired_by_stop in Hin.
        apply releases_mono. eauto.
    + quiet_step.
  - (* line 83 *)
    injection He as <-.
    split; cbn; moved; basic.
  - (* line 63 *)
    injection He as <-.
    split; cbn; moved; basic.
Qed.

End Invariant.

(* ===================================================================== *)
(** ** The speech playback controller: results *)
(* ===================================================================== *)

Section Reachable.

Import Speech.

Lemma Inv_step l s s' : Inv s -> exec l s = Some s' -> Inv s'.
Proof.
  destruct l; eauto using Inv_call, Inv_fg, Inv_wk.
Qed.

Lemma reachable_Inv s : reachable s -> Inv s.
Proof. induction 1; eauto using Inv_initial, Inv_step. Qed.

Lemma run_reachable ls s s' : reachable s -> run ls s = Some s' -> reachable s'.
Proof.
  revert s; induction ls as [|l ls IH]; intros s Hs; cbn [run].
  - by intros [= <-].
  - destruct (exec l s) as [s1|] eqn:He; [|done].
    apply IH. by apply (reach_step l s).
Defined.

Lemma run_fg_reachable n s : reachable s -> reachable (run_fg n s).
Proof.
  revert s; induction n as [|n IH]; intros s Hs; cbn [run_fg]; [done|].
  destruct (exec LFg s) as [s1|] eqn:He; [|done].
  apply IH. by apply (reach_step LFg s).
Qed.

Lemma run_worker_reachable t rs n s :
  reachable s -> reachable (run_worker t rs n s).
Proof.
  revert rs s; induction n as [|n IH]; intros rs s Hs; cbn [run_worker];
    [done|].
  destruct (exec _ s) as [s1|] eqn:He; [|done].
  apply IH. by apply (reach_step _ s _ Hs He).
Qed.


(** C2: the schedule [stop_meets_cleanup] can be run, and in it the one
    engine handed out is stopped twice: once by [stop] and once by the
    worker's [finally]. *)
Theorem stop_meets_cleanup_releases_twice :
  exists s, run stop_meets_cleanup initial = Some s
    /\ acquired (trace s) = [0]
    /\ releases 0 (trace s) = 2
    /\ List.filter uncaught (trace s) = [].
Proof. eexists. split; [vm_compute; reflexivity|]. by vm_compute. Qed.


End Reachable.

Section Sequential.

Import Speech.

Lemma exec_wk t r s w :
  workers s !! t = Some w ->
  exec (LWk t r) s =
    match worker_step t r w (ctl s) (next_handle s) with
    | Some (p, c, nh, evs) =>
        Some (State c (sess s) (fg s)
                    (<[t := Worker (w_text w) p]> (workers s))
                    nh (trace s ++ evs))
    | None => None
    end.
Proof. intros Hl. cbn [exec]. by rewrite Hl. Qed.

Lemma run_worker_run_speech t text rs n s p :
  workers s !! t = Some (Worker text p) ->
  run_worker t rs n s =
    let '(p', c', nh', evs) :=
      run_speech t text rs n p (ctl s) (next_handle s) in
    State c' (sess s) (fg s) (<[t := Worker text p']> (workers s))
          nh' (trace s ++ evs).
Proof.
  revert rs s p; induction n as [|n IH]; intros rs s p Hl;
    cbn [run_worker run_speech].
  - rewrite app_nil_r, list_insert_id by done. by destruct s.
  - rewrite (exec_wk _ _ _ _ Hl). cbn [w_text].
    destruct (worker_step _ _ _ _ _) as [[[[p1 c1] nh1] evs1]|];
      [|rewrite app_nil_r, list_insert_id by done; by destruct s].
    rewrite (IH _ _ p1); cbn [workers ctl next_handle sess fg trace].
    + destruct (run_speech _ _ _ _ _ _ _) as [[[p2 c2] nh2] evs2].
      by rewrite list_insert_insert_eq, app_assoc.
    + apply list_lookup_insert_eq. by eapply lookup_lt_Some.
Qed.

(** A started worker that has not finished can always run its next
    statement: it never waits for the foreground. *)
Lemma worker_never_blocked t r w c nh :
  is_alive (w_pc w) = true -> worker_step t r w c nh <> None.
Proof.
  destruct w as [text p]. unfold worker_step, engine_call. cbn.
  destruct p; try done; intros _; by repeat case_match.
Qed.

Lemma run_speech_terminal t text rs p c nh :
  in_try p = true ->
  exists nh' evs,
    run_speech t text rs 10 p c nh
    = (WDone, Controller None (speech_thread c) false, nh', evs)
    /\ List.filter uncaught evs = [].
Proof.
  destruct c as [e st sp].
  destruct p as [| | | | | |x|[]| | |]; try done; intros _;
    destruct rs as [|[x1|] [|[x2|] [|[x3|] [|[x4|] [|[x5|] rs]]]]];
    destruct e as [h|]; cbn; eauto.
Qed.

(** With an engine whose [stop()] returns: a worker that is inside the
    [try] of [run_speech] or in its handler and runs from there to the end
    with no foreground statement in between, whatever the engine raises on
    lines 55 to 58, ends at the [return] with [is_speaking] false, no engine
    stored and none held; nothing leaves the thread as an uncaught
    exception, the foreground is not touched, and the controller is left
    as a run without any exception leaves it. *)
Theorem synthesis_error_contained s t w rs :
  reachable s -> workers s !! t = Some w -> in_try (w_pc w) = true ->
  let s' := run_worker t rs 10 s in
  workers s' !! t = Some (Worker (w_text w) WDone)
  /\ is_speaking (ctl s') = false
  /\ engine (ctl s') = None
  /\ held (trace s') = []
  /\ fg s' = fg s
  /\ List.filter uncaught (trace s') = List.filter uncaught (trace s)
  /\ ctl s' = ctl (run_worker t [] 10 s).
Proof.
  intros Hs Hl Hp s'.
  assert (held (trace s') = [] \/ engine (ctl s') <> None) as Hh.
  { destruct (engine (ctl s')) eqn:He; [by right | left].
    by apply held_engine_none;
      [apply reachable_Inv, run_worker_reachable|]. }
  revert Hh. subst s'. destruct w as [text p]. cbn in Hp.
  rewrite !(run_worker_run_speech _ _ _ _ _ _ Hl).
  destruct (run_speech_terminal t text rs p (ctl s) (next_handle s) Hp)
    as (nh1 & evs1 & -> & Hu1).
  destruct (run_speech_terminal t text [] p (ctl s) (next_handle s) Hp)
    as (nh2 & evs2 & -> & _).
  cbn. intros [Hh|Hh]; [|done].
  rewrite List.filter_app, Hu1, app_nil_r.
  repeat split; try done.
  apply list_lookup_insert_eq. by eapply lookup_lt_Some.
Qed.

Lemma synthesis_error_contained_witness :
  exists s, run one_speak initial = Some s
    /\ let s' := run_worker 0 [None; None; None;
                               Some (Exn OtherError (lit "no audio device"))]
                            10 s in
       workers s' !! 0 = Some (Worker (lit "hi") WDone)
       /\ is_speaking (ctl s') = false
       /\ engine (ctl s') = None
       /\ held (trace s') = [].
Proof.
  eexists. split; [vm_compute; reflexivity|].
  match goal with
  | |- context [run_worker 0 ?rs 10 ?s0] =>
      destruct (synthesis_error_contained s0 0 (Worker (lit "hi") WSetFlag) rs
                  (run_reachable one_speak initial s0 reach_initial eq_refl)
                  eq_refl eq_refl)
        as (H1 & H2 & H3 & H4 & _)
  end.
  exact (conj H1 (conj H2 (conj H3 H4))).
Defined.

(** With no worker statement in between and an engine whose [stop()]
    returns: [stop] run from any state returns without raising;
    a second [stop] right after it changes nothing more, and where
    [is_speaking] is false already the first changes nothing either. *)
Theorem stop_idempotent s :
  fg s = FIdle ->
  exists s1, perform OpStop s = Some s1
    /\ fg s1 = FIdle
    /\ List.filter uncaught (trace s1) = List.filter uncaught (trace s)
    /\ perform OpStop s1 = Some s1
    /\ (is_speaking (ctl s) = false -> s1 = s).
Proof.
  destruct s as [[e st sp] ss p ws nh tr]. cbn. intros ->.
  destruct sp, e as [h|]; cbn; eexists; (split; [reflexivity|]); cbn;
    rewrite ?app_nil_r, ?List.filter_app, ?app_nil_r; done.
Qed.

Lemma stop_idempotent_witness :
  exists s1, perform OpStop initial = Some s1
    /\ perform OpStop s1 = Some s1 /\ s1 = initial.
Proof.
  destruct (stop_idempotent initial eq_refl) as (s1 & H1 & _ & _ & H2 & H3).
  exists s1. exact (conj H1 (conj H2 (H3 eq_refl))).
Defined.

(** C5, as stated, fails: [speak] with an empty or a blank text starts a
    worker and stores it in [speech_thread]. *)
Lemma speak_blank_starts_worker :
  perform (OpSpeak []) initial
  = Some (State (Controller None (Some 0) false) new_session FIdle
                [Worker [] WSetFlag] 0 [])
  /\ perform (OpSpeak (lit "   ")) initial
     = Some (State (Controller None (Some 0) false) new_session FIdle
                   [Worker (lit "   ") WSetFlag] 0 [])
  /\ perform (OpSpeak []) initial <> Some initial.
Proof. repeat split. discriminate. Qed.

(** C5, amended: [speak] does not look at its text.  For every text, the
    empty one included, once no earlier worker is alive [speak] creates a
    worker for that text, stores it in [speech_thread] and starts it; it
    raises nothing and leaves [engine] and [is_speaking] as they were. *)
Theorem speak_starts_worker s text :
  fg s = FIdle ->
  match speech_thread (ctl s) with
  | Some t => thread_alive (workers s) t = false
  | None => True
  end ->
  perform (OpSpeak text) s
  = Some (State (set_speech_thread (Some (length (workers s))) (ctl s))
                (sess s) FIdle
                (workers s ++ [Worker text WSetFlag])
                (next_handle s) (trace s)).
Proof.
  destruct s as [[e st sp] ss p ws nh tr]. cbn. intros -> Ha.
  unfold perform. cbn.
  destruct st as [t|]; [rewrite Ha|]; cbn;
    rewrite lookup_app_r, Nat.sub_diag by done; cbn;
    rewrite !app_nil_r; do 2 f_equal;
    (replace (length ws) with (length ws + 0) at 1 by lia);
    by rewrite insert_app_r.
Qed.

Lemma speak_starts_worker_witness :
  perform (OpSpeak []) initial
  = Some (State (Controller None (Some 0) false) new_session FIdle
                [Worker [] WSetFlag] 0 []).
Proof. exact (speak_starts_worker initial [] eq_refl I). Defined.

(** With no worker statement in between and an engine whose [stop()]
    returns: [reset_app] run from any state returns without raising; afterwards the query and the response are empty, both
    [is_speaking] flags are false, and when the controller's flag was set
    the stored engine has been stopped and cleared. *)
Theorem reset_stops_playback s :
  fg s = FIdle ->
  exists s1, perform OpReset s = Some s1
    /\ fg s1 = FIdle
    /\ is_speaking (ctl s1) = false
    /\ sess s1 = Session [] [] false (input_text_key (sess s) + 1)
    /\ List.filter uncaught (trace s1) = List.filter uncaught (trace s)
    /\ (is_speaking (ctl s) = true ->
        engine (ctl s1) = None
        /\ forall h, engine (ctl s) = Some h ->
                     trace s1 = trace s ++ [EvStop h]).
Proof.
  destruct s as [[e st sp] ss p ws nh tr]. cbn. intros ->.
  destruct sp, e as [h|]; cbn; eexists; (split; [reflexivity|]); cbn;
    rewrite ?app_nil_r, ?List.filter_app, ?app_nil_r;
    repeat split; try done; by intros ? [= <-].
Qed.

(** X9: Under any interleaving, the statement with which [stop] returns
    leaves [is_speaking] false. *)
Lemma stop_returns_with_flag_false s s' :
  in_stop (fg s) = true -> exec LFg s = Some s' -> fg s' = FIdle ->
  List.filter uncaught (trace s') = List.filter uncaught (trace s) ->
  is_speaking (ctl s') = false.
Proof.
  intros Hin He Hidle Hu. destruct s as [[e st sp] ss p ws nh tr].
  destruct p as [|text|text|text| | | |[]|]; try done; cbn in He;
    repeat case_match; simplify_eq/=; try done.
  rewrite List.filter_app in Hu. apply (f_equal length) in Hu.
  rewrite length_app in Hu. cbn in Hu. lia.
Qed.

Lemma reset_stops_playback_witness :
  exists s, run (one_speak ++ [LWk 0 None; LWk 0 None]) initial = Some s
    /\ is_speaking (ctl s) = true /\ engine (ctl s) = Some 0
    /\ exists s1, perform OpReset s = Some s1
         /\ is_speaking (ctl s1) = false /\ engine (ctl s1) = None
         /\ trace s1 = trace s ++ [EvStop 0].
Proof.
  eexists. split; [vm_compute; reflexivity|].
  split; [reflexivity|]. split; [reflexivity|].
  match goal with
  | |- context [perform OpReset ?s0] =>
      destruct (reset_stops_playback s0 eq_refl)
        as (s1 & H1 & _ & H2 & _ & _ & H3)
  end.
  destruct (H3 eq_refl) as [H4 H5].
  exists s1. exact (conj H1 (conj H2 (conj H4 (H5 0 eq_refl)))).
Defined.

Lemma fg_step_flag p c ss ws p' c' ss' ws' evs :
  fg_step p c ss ws = Some (p', c', ss', ws', evs) ->
  is_speaking c' <> is_speaking c -> p = FStopClear.
Proof.
  destruct c as [e st sp].
  destruct p as [|text|text|text| | | |[]|]; cbn; try done;
    repeat case_match; intros; by simplify_eq/=.
Qed.

Lemma worker_step_flag t r w c nh p' c' nh' evs :
  worker_step t r w c nh = Some (p', c', nh', evs) ->
  is_speaking c' <> is_speaking c ->
  w_pc w = WSetFlag \/ w_pc w = WClearFlag.
Proof.
  destruct c as [e st sp], w as [text q].
  destruct q as [| | | | | |x|[]| | |]; cbn; unfold engine_call; try done;
    auto; repeat case_match; intros; by simplify_eq/=.
Qed.

Lemma is_speaking_writers l s s' :
  exec l s = Some s' ->
  is_speaking (ctl s') <> is_speaking (ctl s) ->
  (l = LFg /\ fg s = FStopClear)
  \/ exists t r w, l = LWk t r /\ workers s !! t = Some w
        /\ (w_pc w = WSetFlag \/ w_pc w = WClearFlag).
Proof.
  destruct l as [o| |t r]; cbn [exec].
  - destruct (fg s); try done. by intros [= <-].
  - destruct (fg_step _ _ _ _) as [[[[[p' c'] ss'] ws'] evs]|] eqn:Hs;
      [|done].
    intros [= <-] Hne. left. split; [done|]. by eapply fg_step_flag.
  - destruct (workers s !! t) as [w|] eqn:Hl; [|done].
    destruct (worker_step _ _ _ _ _) as [[[[p' c'] nh'] evs]|] eqn:Hs;
      [|done].
    intros [= <-] Hne. right. exists t, r, w. repeat split; try done.
    by eapply worker_step_flag.
Qed.

Lemma speak_statement_frame s s' :
  in_speak (fg s) = true -> exec LFg s = Some s' ->
  in_speak (fg s') = true /\ is_speaking (ctl s') = is_speaking (ctl s).
Proof.
  intros Hp He. split.
  - destruct s as [c ss p ws nh tr]. cbn in *.
    destruct p; try done; cbn in He; repeat case_match; by simplify_eq/=.
  - destruct (decide (is_speaking (ctl s') = is_speaking (ctl s)))
      as [|Hne]; [done|].
    destruct (is_speaking_writers _ _ _ He Hne) as [[_ Hf]|(?&?&?&?&_)];
      [by rewrite Hf in Hp | done].
Qed.

Lemma run_fg_speak_frame n s :
  in_speak (fg s) = true ->
  is_speaking (ctl (run_fg n s)) = is_speaking (ctl s).
Proof.
  revert s; induction n as [|n IH]; intros s Hp; cbn [run_fg]; [done|].
  destruct (exec LFg s) as [s1|] eqn:He; [|done].
  destruct (speak_statement_frame _ _ Hp He) as [Hp1 <-]. by apply IH.
Qed.

(** C10: [is_speaking] changes only at line 54 or line 63 of a worker and
    at line 77 of [stop]; [speak] run on its own, up to its return or to
    the [join] it waits in, leaves the flag as it found it. *)
Theorem speak_never_writes_is_speaking :
  (forall l s s',
      exec l s = Some s' ->
      is_speaking (ctl s') <> is_speaking (ctl s) ->
      (l = LFg /\ fg s = FStopClear)
      \/ exists t r w, l = LWk t r /\ workers s !! t = Some w
            /\ (w_pc w = WSetFlag \/ w_pc w = WClearFlag))
  /\ (forall s text s',
        perform (OpSpeak text) s = Some s' ->
        is_speaking (ctl s') = is_speaking (ctl s)).
Proof.
  split; [apply is_speaking_writers|].
  intros s text s'. unfold perform.
  destruct (exec (LCall (OpSpeak text)) s) as [s1|] eqn:He; [|done].
  intros [= <-].
  assert (in_speak (fg s1) = true
          /\ is_speaking (ctl s1) = is_speaking (ctl s)) as [Hp <-].
  { cbn in He. destruct (fg s); try done. by injection He as <-. }
  exact (run_fg_speak_frame 6 s1 Hp).
Qed.

Lemma speak_never_writes_is_speaking_witness :
  exists s', perform (OpSpeak (lit "hello")) initial = Some s'
    /\ thread_alive (workers s') 0 = true
    /\ is_speaking (ctl s') = false.
Proof.
  eexists. split; [vm_compute; reflexivity|]. split; [reflexivity|].
  exact (proj2 speak_never_writes_is_speaking initial (lit "hello") _ eq_refl).
Defined.

End Sequential.

(* ===================================================================== *)
(** ** More on strings, replies and capture *)
(* ===================================================================== *)

Section StripFacts.

Implicit Types s : str.
Implicit Types c : char.

Lemma lstrip_head s :
  match lstrip s with [] => True | c :: _ => isspace c = false end.
Proof.
  induction s as [|c s IH]; [done|]. cbn [lstrip].
  by destruct (isspace c) eqn:Hc.
Qed.

Lemma lstrip_keeps c a b :
  isspace c = false -> lstrip (a ++ c :: b) = lstrip a ++ c :: b.
Proof.
  intros Hc. induction a as [|d a IH]; cbn [lstrip app]; [by rewrite Hc|].
  by destruct (isspace d).
Qed.

Lemma rstrip_cons c s : isspace c = false -> rstrip (c :: s) = c :: rstrip s.
Proof.
  intros Hc. unfold rstrip. cbn [rev].
  rewrite (lstrip_keeps c (rev s) [] Hc), rev_app_distr. done.
Qed.

Lemma strip_head s :
  match strip s with [] => True | c :: _ => isspace c = false end.
Proof.
  unfold strip. pose proof (lstrip_head s) as H.
  destruct (lstrip s) as [|c r]; [done|]. by rewrite rstrip_cons.
Qed.

Lemma rstrip_last s c : last (rstrip s) = Some c -> isspace c = false.
Proof.
  unfold rstrip. pose proof (lstrip_head (rev s)) as H.
  destruct (lstrip (rev s)) as [|d r]; [done|].
  cbn [rev]. rewrite last_snoc. by intros [= <-].
Qed.

Lemma lstrip_length s : length (lstrip s) <= length s.
Proof.
  induction s as [|c s IH]; cbn [lstrip length]; [done|].
  destruct (isspace c); cbn [length]; lia.
Qed.

Lemma strip_length s : length (strip s) <= length s.
Proof.
  unfold strip, rstrip. rewrite length_rev.
  etrans; [apply lstrip_length|]. rewrite length_rev. apply lstrip_length.
Qed.

Lemma replace_from_delete_length old k s :
  length (replace_from old [] k s) <= length s.
Proof.
  revert k; induction s as [|c s IH]; intros k; [done|].
  cbn [replace_from]. destruct k as [|k].
  - destruct (startswith old (c :: s)); cbn [app length].
    + specialize (IH (length old - 1)). lia.
    + specialize (IH 0). lia.
  - specialize (IH k). cbn [length]. lia.
Qed.

Lemma replace_absent a old new s :
  contains (a :: old) s = false -> replace (a :: old) new s = s.
Proof.
  unfold replace. induction s as [|c s IH]; [done|].
  cbn [contains replace_from]. intros [-> Hc]%orb_false_elim.
  by rewrite IH.
Qed.

End StripFacts.

Section ChatExtra.

Import Chat.

(** X1: What [get_chatbot_response] returns is empty or begins with a
    character that is not whitespace; a cleaned reply does not end with
    whitespace either. *)
Theorem chat_result_trimmed (model : backend) (user_input r : str) :
  get_chatbot_response model user_input = Ret r ->
  match r with [] => True | c :: _ => isspace c = false end
  /\ forall text c, model (paragraph_prompt user_input) config = Ret text ->
       last r = Some c -> isspace c = false.
Proof.
  unfold get_chatbot_response.
  destruct (model _ _) as [text|e]; cbn [obind try_except]; intros [= <-].
  - split; [apply strip_head|]. intros ? c _. apply rstrip_last.
  - split; [done|]. by intros.
Qed.

Lemma chat_result_trimmed_witness :
  match lit "ok" with [] => True | c :: _ => isspace c = false end.
Proof.
  exact (proj1 (chat_result_trimmed (fun _ _ => Ret (lit "  ok  ")) (lit "hi")
                  (lit "ok") eq_refl)).
Defined.

(** X2: Cleaning only deletes: the result is no longer than the reply and
    every character of it occurs in the reply. *)
Theorem clean_only_deletes (text : str) :
  length (clean text) <= length text
  /\ forall c, In c (clean text) -> In c text.
Proof.
  unfold clean, replace. split.
  - etrans; [apply strip_length|].
    etrans; apply replace_from_delete_length.
  - intros c H%In_strip. by do 2 apply replace_from_delete_In in H.
Qed.

(** X3: A reply with no bullet and no ["- "] is returned as it is, except for
    the whitespace around it. *)
Theorem chat_plain_reply_stripped (model : backend) (user_input text : str) :
  model (paragraph_prompt user_input) config = Ret text ->
  contains [bullet] text = false ->
  contains [dash; space] text = false ->
  get_chatbot_response model user_input = Ret (strip text).
Proof.
  intros Hm Hb Hd. unfold get_chatbot_response. rewrite Hm.
  cbn [obind try_except]. unfold clean.
  by rewrite (replace_absent _ _ _ _ Hb), (replace_absent _ _ _ _ Hd).
Qed.

Lemma chat_plain_reply_stripped_witness :
  get_chatbot_response (fun _ _ => Ret (lit " a well-known fact ")) (lit "hi")
  = Ret (lit "a well-known fact").
Proof.
  exact (chat_plain_reply_stripped (fun _ _ => Ret (lit " a well-known fact "))
           (lit "hi") _ eq_refl eq_refl eq_refl).
Defined.

End ChatExtra.

Section VoiceExtra.

Import Voice.

(** X4: The only exception that leaves [get_voice_input] is one raised while
    the microphone is opened; nothing has been shown then.  Whatever is
    raised later is caught. *)
Theorem voice_raises_only_at_open (audio : Type) (e : exn)
    (microphone_enter : outcome unit)
    (adjust_for_ambient_noise : N -> outcome unit)
    (listen : N -> N -> outcome audio)
    (recognize_google : audio -> outcome str) (log : list status_msg) :
  let res := get_voice_input audio microphone_enter adjust_for_ambient_noise
               listen recognize_google log in
  (res.1 = Raise e <-> microphone_enter = Raise e)
  /\ (microphone_enter = Raise e -> res.2 = log).
Proof.
  unfold get_voice_input.
  cbv [mbind M_bind bind call show try_with ret].
  destruct microphone_enter as [[]|e0]; cbn [fst snd];
    [|by split; [split; intros [= ->]|]].
  split; [|done]. split; [|done].
  destruct (adjust_for_ambient_noise 1%N) as [[]|e1];
    [|by rewrite (proj1 (on_error_result e1 _))].
  destruct (listen 5%N 35%N) as [a|e1];
    [|by rewrite (proj1 (on_error_result e1 _))].
  destruct (recognize_google a) as [text|e1];
    [done | by rewrite (proj1 (on_error_result e1 _))].
Qed.

Lemma voice_raises_only_at_open_witness :
  (get_voice_input unit (Raise (Exn OtherError (lit "no default input device")))
                   (fun _ => Ret tt) (fun _ _ => Ret tt) (fun _ => Ret [])
                   []).1
  = Raise (Exn OtherError (lit "no default input device")).
Proof.
  exact (proj2 (proj1 (voice_raises_only_at_open unit _ _ (fun _ => Ret tt)
                         (fun _ _ => Ret tt) (fun _ => Ret []) []))
               eq_refl).
Defined.

End VoiceExtra.

(* ===================================================================== *)
(** ** The controller at rest: facts *)
(* ===================================================================== *)

Section RestFacts.
Import Speech Quiescent.










Lemma run_speech_finishes t text rs p c nh :
  is_alive p = true ->
  finished (run_speech t text rs 10 p c nh).1.1.1 = true.
Proof.
  destruct c as [e st sp].
  destruct p as [| | | | | |x|[]| | |]; try done; intros _;
    destruct rs as [|[x1|] [|[x2|] [|[x3|] [|[x4|] [|[x5|] rs]]]]];
    destruct e as [h|]; by cbn.
Qed.

(** X7: A started worker left to run reaches the end of [run_speech], by
    [return] or by an exception, within ten statements, whatever the
    engine raises and whatever the controller holds. *)
Theorem worker_finishes_in_ten s t w rs :
  workers s !! t = Some w -> is_alive (w_pc w) = true ->
  exists p, workers (run_worker t rs 10 s) !! t = Some (Worker (w_text w) p)
    /\ finished p = true.
Proof.
  intros Hl Ha. destruct w as [text p]. cbn [w_pc w_text] in *.
  rewrite (run_worker_run_speech _ _ _ _ _ _ Hl).
  pose proof (run_speech_finishes t text rs p (ctl s) (next_handle s) Ha)
    as Hf.
  destruct (run_speech _ _ _ _ _ _ _) as [[[p' c'] nh'] evs].
  cbn [fst workers] in *. exists p'. split; [|done].
  apply list_lookup_insert_eq. by eapply lookup_lt_Some.
Qed.

Lemma worker_finishes_in_ten_witness :
  exists s, run one_speak initial = Some s
    /\ exists p, workers (run_worker 0 [None; Some (Exn OtherError [])] 10 s)
                 !! 0 = Some (Worker (lit "hi") p)
         /\ finished p = true.
Proof.
  eexists. split; [vm_compute; reflexivity|].
  match goal with
  | |- context [run_worker 0 ?rs 10 ?s0] =>
      exact (worker_finishes_in_ten s0 0 (Worker (lit "hi") WSetFlag) rs
               eq_refl eq_refl)
  end.
Defined.

End RestFacts.

(* ===================================================================== *)
(** ** Serialised [speak] calls *)
(* ===================================================================== *)

Section Serialised.
Import Speech Scenarios.










End Serialised.

(* ===================================================================== *)
(** ** Defects of the controller *)
(* ===================================================================== *)

Section Defects.
Import Speech Faults Scenarios.

(** C3: an exception raised by [engine.stop()] in the [finally] of
    [run_speech] is not contained.  Whatever it is, and also when an
    exception of [runAndWait] was caught and reported before, it leaves
    the worker thread uncaught with [is_speaking] still true and the
    engine still stored and not released; a session without exception
    ends with [is_speaking] false, no engine stored and the engine
    stopped. *)
Theorem stop_error_escapes_finally t text e e1 c nh :
  run_speech_r t text (stop_raises e) 10 WSetFlag c nh
  = (WCrashed, Controller (Some nh) (speech_thread c) true, S nh,
     [EvInit t nh; EvSetProperty nh 150; EvSay nh text; EvRunAndWait nh;
      EvUncaught (Some t) e])
  /\ run_speech_r t text (run_and_stop_raise e1 e) 10 WSetFlag c nh
     = (WCrashed, Controller (Some nh) (speech_thread c) true, S nh,
        [EvInit t nh; EvSetProperty nh 150; EvSay nh text;
         EvStError (lit "Speech synthesis error: " ++ exn_str e1);
         EvUncaught (Some t) e])
  /\ run_speech_r t text [] 10 WSetFlag c nh
     = (WDone, Controller None (speech_thread c) false, S nh,
        [EvInit t nh; EvSetProperty nh 150; EvSay nh text; EvRunAndWait nh;
         EvStop nh]).
Proof. destruct c as [en st sp]. by repeat split. Qed.

(** C4: [stop()] can raise.  With the worker on line 58 the controller is
    speaking and holds its engine; [stop()] is called, passes the test of
    line 81, the worker's [finally] clears [engine], and line 82 of
    [stop()] raises [AttributeError]: line 77 is not reached and
    [is_speaking] is still true when [stop()] is left. *)
Theorem stop_meets_cleanup_raises :
  exists s0 s,
    run playing initial = Some s0
    /\ fg s0 = FIdle /\ is_speaking (ctl s0) = true
    /\ engine (ctl s0) = Some 0
    /\ run stop_meets_finally s0 = Some s
    /\ fg s = FIdle
    /\ List.filter uncaught (trace s)
       = [EvUncaught None (attribute_error "stop")]
    /\ is_speaking (ctl s) = true
    /\ releases 0 (trace s) = 1.
Proof.
  eexists. eexists. split; [vm_compute; reflexivity|].
  do 3 (split; [reflexivity|]). split; [vm_compute; reflexivity|].
  by vm_compute.
Qed.

(** C6: a reset that comes while the worker is on line 55, after it has
    set [is_speaking] and before it has stored the engine, returns with
    [is_speaking] false and has stopped nothing; the worker then speaks
    the whole text with [is_speaking] false, and a [stop()] during that
    does nothing.  A reset that comes before line 54 finds [is_speaking]
    false, and the worker sets it after the reset has returned. *)
Theorem reset_misses_starting_worker :
  (exists s0 s1,
     run starting initial = Some s0
     /\ fg s0 = FIdle /\ is_speaking (ctl s0) = true
     /\ perform OpReset s0 = Some s1
     /\ fg s1 = FIdle /\ is_speaking (ctl s1) = false
     /\ sess s1 = Session [] [] false 1
     /\ trace s1 = []
     /\ trace (run_worker 0 [] 4 s1)
        = [EvInit 0 0; EvSetProperty 0 150; EvSay 0 (lit "hi");
           EvRunAndWait 0]
     /\ is_speaking (ctl (run_worker 0 [] 3 s1)) = false
     /\ held (trace (run_worker 0 [] 3 s1)) = [0]
     /\ perform OpStop (run_worker 0 [] 3 s1) = Some (run_worker 0 [] 3 s1))
  /\ (exists s0 s1,
        run one_speak initial = Some s0
        /\ perform OpReset s0 = Some s1
        /\ fg s1 = FIdle /\ is_speaking (ctl s1) = false
        /\ is_speaking (ctl (run_worker 0 [] 1 s1)) = true
        /\ trace (run_worker 0 [] 5 s1)
           = [EvInit 0 0; EvSetProperty 0 150; EvSay 0 (lit "hi");
              EvRunAndWait 0]).
Proof.
  split; eexists; eexists; (split; [vm_compute; reflexivity|]).
  - do 2 (split; [reflexivity|]). split; [vm_compute; reflexivity|].
    by vm_compute.
  - split; [vm_compute; reflexivity|]. by vm_compute.
Qed.

End Defects.

(* ===================================================================== *)
(** ** The script: what every run keeps *)
(* ===================================================================== *)

Section Keeps.
Import Speech App.

Context {P : world -> Prop}.

Lemma keeps_ret {A} (a : A) : keeps P (ret a).
Proof. by intros w. Qed.

Lemma keeps_bind {A B} (m : Script A) (k : A -> Script B) :
  keeps P m -> (forall a, keeps P (k a)) -> keeps P (m ≫= k).
Proof.
  intros Hm Hk w HP. specialize (Hm w HP).
  unfold mbind, Script_bind, bind. destruct (m w) as [[a|h] w']; [|done].
  by apply Hk.
Qed.

Lemma keeps_when b (m : Script unit) : keeps P m -> keeps P (when b m).
Proof. destruct b; [done | intros _; apply keeps_ret]. Qed.

Lemma keeps_get : keeps P get.
Proof. by intros w. Qed.

Lemma keeps_rerun : keeps P rerun.
Proof. by intros w. Qed.

Lemma keeps_lift {A} (r : outcome A) : keeps P (lift r).
Proof. intros w. by destruct r. Qed.

End Keeps.

Section Sound.
Import Speech App.

Lemma calls_app l l' : calls (l ++ l') = calls l ++ calls l'.
Proof.
  induction l as [|[] l IH]; cbn [calls app]; by rewrite ?IH.
Qed.

Lemma calls_status log : calls (map Status log) = [].
Proof. by induction log. Qed.

Lemma trimmed_not_blank c s : trimmed_head (c :: s) -> blank (c :: s) = false.
Proof. cbn. by intros ->. Qed.

Ltac solve_calls :=
  cbn [out store fst snd]; rewrite ?calls_app; cbn [calls];
  repeat (apply Forall_app; split); try done;
  repeat (constructor; try done).

Lemma sound_emit e :
  match e with Call o => speaks_text o | _ => True end ->
  keeps sound (emit e).
Proof.
  intros He w [Ht Hc]. split; [done|]. cbn. rewrite calls_app.
  apply Forall_app. split; [done|]. destruct e; cbn; auto.
Qed.

Lemma sound_set_vars f :
  (forall v, trimmed_head (chat_response v) ->
             trimmed_head (chat_response (f v))) ->
  keeps sound (set_vars f).
Proof. intros Hf w [Ht Hc]. split; [by apply Hf | done]. Qed.

Lemma sound_set_mode m : keeps sound (set_mode m).
Proof. by intros w [Ht Hc]. Qed.

Lemma sound_controller e o : speaks_text o -> keeps sound (controller e o).
Proof.
  intros Ho w [Ht Hc]. unfold controller, lift.
  assert (sound (World (store w) (out w ++ [Call o]))) as Hs.
  { split; [done|]. cbn. rewrite calls_app. apply Forall_app. cbn. auto. }
  by destruct (controller_call _ _ _).
Qed.

Lemma sound_voice e : keeps sound (voice e).
Proof.
  intros w [Ht Hc]. unfold voice.
  destruct (Voice.get_voice_input _ _ _ _ _ _) as [r log].
  assert (sound (World (store w) (out w ++ map Status log))) as Hs.
  { split; [done|]. cbn. by rewrite calls_app, calls_status, app_nil_r. }
  by destruct r.
Qed.

Lemma chat_result_head model text r :
  Chat.get_chatbot_response model text = Ret r -> trimmed_head r.
Proof.
  unfold Chat.get_chatbot_response.
  destruct (model _ _) as [t|e]; cbn [obind try_except]; intros [= <-];
    [apply strip_head | done].
Qed.

Lemma sound_reset_app e : keeps sound (reset_app e).
Proof.
  unfold reset_app, set_chat_response, set_user_input, set_is_speaking,
    bump_key.
  repeat (apply keeps_bind; [|intros _]);
    try (by apply sound_set_vars); by apply sound_controller.
Qed.

Lemma sound_answer e text : keeps sound (answer e text).
Proof.
  intros w [Ht Hc]. unfold answer, set_chat_response, set_user_input.
  cbv [mbind Script_bind bind set_vars lift].
  destruct (Chat.get_chatbot_response (model e) text) as [r|x] eqn:Hr;
    (split; [|done]); cbn; [|done].
  by eapply chat_result_head.
Qed.

Lemma sound_show_response w e : keeps sound (show_response w e).
Proof.
  intros [[cm [cr ui fl k]] log] [Ht Hc]. cbn in Ht, Hc.
  unfold show_response, when, set_is_speaking.
  cbv [mbind Script_bind bind emit get set_vars controller lift rerun ret mret
       Script_ret].
  cbn [store out vars current_mode chat_response user_input ss_is_speaking
       input_text_key truthy fst snd].
  destruct cr as [|c cr]; cbn [truthy]; [split; [done | solve_calls]|].
  pose proof (trimmed_not_blank _ _ Ht) as Hb.
  destruct (speak_response w);
    repeat first
      [ progress cbn [store out vars current_mode chat_response user_input
                      ss_is_speaking input_text_key fst snd]
      | match goal with
        | |- context [controller_call ?e ?n ?o] =>
            destruct (controller_call e n o)
        | |- context [if stop_speaking w then _ else _] =>
            destruct (stop_speaking w)
        | |- context [if fl then _ else _] => destruct fl
        end ];
    (split; [done | solve_calls]).
Qed.

(** The steps of a block that does not depend on what it reads. *)
Ltac keeps_steps :=
  repeat lazymatch goal with
    | |- keeps _ (reset_app _) => apply sound_reset_app
    | |- keeps _ (answer _ _) => apply sound_answer
    | |- keeps _ (voice _) => apply sound_voice
    | |- keeps _ (set_mode _) => apply sound_set_mode
    | |- keeps _ (emit _) => by apply sound_emit
    | |- keeps _ (set_vars _) => by apply sound_set_vars
    | |- keeps _ (when _ _) => apply keeps_when
    | |- keeps _ get => apply keeps_get
    | |- keeps _ rerun => apply keeps_rerun
    | |- keeps _ (ret _) => apply keeps_ret
    | |- keeps _ (mret _) => apply keeps_ret
    | |- keeps _ (mbind _ _) => apply keeps_bind; [|intros ?]
    | |- keeps _ (match ?x with _ => _ end) => destruct x
    end.

Lemma sound_script w e : keeps sound (script w e).
Proof.
  unfold script.
  apply keeps_bind; [|intros _].
  { unfold select_mode. keeps_steps. }
  apply keeps_bind; [|intros _].
  { unfold reset_button. keeps_steps. }
  apply keeps_bind; [|intros _].
  { destruct (radio w); [unfold text_mode, bump_key | unfold voice_mode];
      keeps_steps. }
  apply keeps_bind; [|intros _].
  { unfold show_query. keeps_steps. }
  apply keeps_bind; [apply sound_show_response | intros _].
  unfold footer. keeps_steps.
Qed.

Lemma sound_start s :
  match s with
  | Some a => trimmed_head (chat_response (vars a))
  | None => True
  end ->
  sound (start s).
Proof. destruct s; cbn; intros H; split; cbn; auto. Qed.

Lemma session_sound rs s :
  match s with
  | Some a => trimmed_head (chat_response (vars a))
  | None => True
  end ->
  Forall (fun log => Forall speaks_text (calls log)) (run_session rs s).2.
Proof.
  revert s; induction rs as [|[w e] rs IH]; intros s Hs; cbn [run_session];
    [by constructor|].
  pose proof (sound_script w e _ (sound_start s Hs)) as [Ht Hc].
  unfold run_script. destruct (script w e (start s)) as [r w'].
  cbn [snd] in *. specialize (IH (Some (store w')) Ht).
  destruct (run_session rs (Some (store w'))) as [s' logs]. by constructor.
Qed.

(** X10: In a session, from the first run on, [speak] is never called with
    an empty or whitespace-only text. *)
Theorem speak_never_given_blank rs log text :
  In log (run_session rs None).2 -> In (OpSpeak text) (calls log) ->
  blank text = false.
Proof.
  intros Hl Ho. pose proof (session_sound rs None I) as H.
  rewrite Forall_forall in H. rewrite <- list_elem_of_In in Hl.
  specialize (H _ Hl). rewrite Forall_forall in H.
  rewrite <- list_elem_of_In in Ho. exact (H _ Ho).
Qed.

End Sound.

(** Predicates that no rendering, no controller call and no write to the
    four session variables can change. *)
Section Stable.
Import Speech App.

Variable P : world -> Prop.
Hypothesis P_out : forall w e,
  e <> NewController -> P w -> P (World (store w) (out w ++ [e])).
Hypothesis P_vars : forall w f,
  P w -> P (World (SessionState (current_mode (store w)) (f (vars (store w))))
                  (out w)).

Lemma stable_emit e : e <> NewController -> keeps P (emit e).
Proof. intros He w Hw. by apply P_out. Qed.

Lemma stable_set_vars f : keeps P (set_vars f).
Proof. intros w Hw. by apply P_vars. Qed.

Lemma stable_controller e o : keeps P (controller e o).
Proof.
  intros w Hw. unfold controller, lift.
  assert (P (World (store w) (out w ++ [Call o]))) by by apply P_out.
  by destruct (controller_call _ _ _).
Qed.

Lemma stable_statuses w log :
  P w -> P (World (store w) (out w ++ map Status log)).
Proof.
  revert w; induction log as [|m log IH]; intros w Hw; cbn [map].
  - rewrite app_nil_r. by destruct w.
  - specialize (IH _ (P_out w (Status m) ltac:(done) Hw)).
    cbn [store out] in IH. by rewrite <- app_assoc in IH.
Qed.

Lemma stable_voice e : keeps P (voice e).
Proof.
  intros w Hw. unfold voice.
  destruct (Voice.get_voice_input _ _ _ _ _ _) as [r log].
  pose proof (stable_statuses w log Hw). by destruct r.
Qed.

Ltac stable_steps :=
  repeat lazymatch goal with
    | |- keeps _ (voice _) => apply stable_voice
    | |- keeps _ (controller _ _) => apply stable_controller
    | |- keeps _ (emit _) => by apply stable_emit
    | |- keeps _ (set_vars _) => apply stable_set_vars
    | |- keeps _ (lift _) => apply keeps_lift
    | |- keeps _ (when _ _) => apply keeps_when
    | |- keeps _ get => apply keeps_get
    | |- keeps _ rerun => apply keeps_rerun
    | |- keeps _ (ret _) => apply keeps_ret
    | |- keeps _ (mret _) => apply keeps_ret
    | |- keeps _ (mbind _ _) => apply keeps_bind; [|intros ?]
    | |- keeps _ (match ?x with _ => _ end) => destruct x
    end.

Lemma stable_reset_app e : keeps P (reset_app e).
Proof.
  unfold reset_app, set_chat_response, set_user_input, set_is_speaking,
    bump_key. stable_steps.
Qed.

Lemma stable_answer e text : keeps P (answer e text).
Proof. unfold answer, set_chat_response, set_user_input. stable_steps. Qed.

(** Everything after the mode selection. *)
Lemma stable_after_mode w e :
  keeps P (reset_button w e ;;
           match radio w with
           | Text => text_mode w e
           | Voice => voice_mode w e
           end ;;
           show_query ;;
           show_response w e ;;
           footer).
Proof.
  pose proof stable_reset_app. pose proof stable_answer.
  apply keeps_bind; [|intros _].
  { unfold reset_button. apply keeps_bind; [by apply stable_emit | intros _].
    apply keeps_when. apply keeps_bind; [done | intros _; apply keeps_rerun]. }
  apply keeps_bind; [|intros _].
  { destruct (radio w); [unfold text_mode, bump_key | unfold voice_mode].
    - apply keeps_bind; [apply keeps_get | intros a].
      do 3 (apply keeps_bind; [by apply stable_emit | intros _]).
      apply keeps_bind; [by apply keeps_when | intros _].
      apply keeps_when. stable_steps.
    - apply keeps_bind; [by apply stable_emit | intros _].
      apply keeps_when. apply keeps_bind; [apply stable_voice | intros [t|]].
      + by apply keeps_when.
      + apply keeps_ret. }
  apply keeps_bind; [|intros _].
  { unfold show_query. stable_steps. }
  apply keeps_bind; [|intros _].
  { unfold show_response, set_is_speaking. stable_steps. }
  unfold footer. stable_steps.
Qed.

End Stable.

Section Tracking.
Import Speech App.

(** X11: After a run, however it ended, [current_mode] is the mode selected
    in it. *)
Theorem mode_follows_radio w e s :
  current_mode (store (run_script w e s).2) = Some (radio w).
Proof.
  set (P := fun w' : world => current_mode (store w') = Some (radio w)).
  assert (keeps P (reset_app e)) as Hr by by apply stable_reset_app.
  unfold run_script, script. change (P (script w e (start s)).2).
  unfold script.
  assert (forall w0, P (select_mode w e w0).2) as Hsel.
  { intros [[cm v] log]. unfold select_mode, when.
    cbv [mbind Script_bind bind emit get set_mode].
    cbn [store out current_mode vars].
    destruct (mode_differs (radio w) cm) eqn:Hd.
    - apply (Hr (World (SessionState (Some (radio w)) v) _)). done.
    - unfold P. cbn. by destruct (radio w), cm as [[]|]. }
  specialize (Hsel (start s)).
  unfold mbind at 1, Script_bind at 1, bind at 1.
  destruct (select_mode w e (start s)) as [[[]|h] w1]; [|done].
  by apply (stable_after_mode P).
Qed.

Lemma creations_app l l' : creations (l ++ l') = creations l + creations l'.
Proof.
  induction l as [|[] l IH]; cbn [creations app]; by rewrite ?IH.
Qed.

Lemma script_creates_nothing w e w0 :
  creations (out (script w e w0).2) = creations (out w0).
Proof.
  set (P := fun w' : world => creations (out w') = creations (out w0)).
  assert (forall w' x, x <> NewController -> P w' ->
            P (World (store w') (out w' ++ [x]))) as Hout.
  { intros w' x Hx Hw. unfold P in *. cbn. rewrite creations_app, Hw.
    destruct x; cbn; try done; lia. }
  assert (keeps P (script w e)) as Hk.
  { unfold script. apply keeps_bind; [|intros _; by apply stable_after_mode].
    unfold select_mode. apply keeps_bind; [by apply stable_emit | intros _].
    apply keeps_bind; [apply keeps_get | intros a]. apply keeps_when.
    apply keeps_bind; [by intros w' Hw | intros _].
    by apply stable_reset_app. }
  by apply Hk.
Qed.

(** X12: The controller is created in the first run of a session and never
    again. *)
Theorem controller_created_once w e rs :
  exists log logs,
    (run_session ((w, e) :: rs) None).2 = log :: logs
    /\ creations log = 1
    /\ Forall (fun l => creations l = 0) logs.
Proof.
  assert (forall rs s, s <> None ->
            Forall (fun l => creations l = 0) (run_session rs s).2) as Hlater.
  { clear. induction rs as [|[w e] rs IH]; intros s Hs; cbn [run_session];
      [by constructor|].
    unfold run_script.
    pose proof (script_creates_nothing w e (start s)) as Hc.
    destruct (script w e (start s)) as [r w'].
    specialize (IH (Some (store w')) ltac:(done)).
    destruct (run_session rs (Some (store w'))) as [s' logs].
    constructor; [|done]. cbn [snd] in Hc. rewrite Hc.
    by destruct s. }
  cbn [run_session]. unfold run_script.
  pose proof (script_creates_nothing w e (start None)) as Hc.
  destruct (script w e (start None)) as [r w'].
  specialize (Hlater rs (Some (store w')) ltac:(done)).
  destruct (run_session rs (Some (store w'))) as [s' logs].
  exists (out w'), logs. by repeat split.
Qed.

End Tracking.

(* ===================================================================== *)
(** ** The script: single runs *)
(* ===================================================================== *)

Section ResetFrame.
Import Speech Scenarios Frame.

Lemma fg_step_session p c ss ws p' c' ss' ws' evs ss2 :
  fg_step p c ss ws = Some (p', c', ss', ws', evs) ->
  exists ss2', fg_step p c ss2 ws = Some (p', c', ss2', ws', evs).
Proof.
  destruct p as [|text|text|text| | | |pc|]; cbn; try done;
    repeat case_match; intros; simplify_eq/=; eauto.
Qed.

Lemma exec_same l s1 s2 s1' :
  same_controller s1 s2 -> exec l s1 = Some s1' ->
  exists s2', exec l s2 = Some s2' /\ same_controller s1' s2'.
Proof.
  destruct s1 as [c ss1 p ws nh tr], s2 as [c2 ss2 p2 ws2 nh2 tr2].
  intros (Hc & Hp & Hw & Hn & Ht). cbn in *. subst c2 p2 ws2 nh2 tr2.
  destruct l as [o| |t r]; cbn [exec fg ctl sess workers next_handle trace].
  - destruct p; try done. intros [= <-]. eexists. split; [done|].
    by repeat split.
  - destruct (fg_step p c ss1 ws) as [[[[[p' c'] ss'] ws'] evs]|] eqn:Hs;
      [|done].
    intros [= <-]. destruct (fg_step_session _ _ _ _ _ _ _ _ _ ss2 Hs)
      as [ss2' ->].
    eexists. split; [done|]. by repeat split.
  - destruct (ws !! t) as [w|]; [|done].
    destruct (worker_step _ _ _ _ _) as [[[[p' c'] nh'] evs]|]; [|done].
    intros [= <-]. eexists. split; [done|]. by repeat split.
Qed.

Lemma run_same ls s1 s2 s1' :
  same_controller s1 s2 -> run ls s1 = Some s1' ->
  exists s2', run ls s2 = Some s2' /\ same_controller s1' s2'.
Proof.
  revert s1 s2; induction ls as [|l ls IH]; intros s1 s2 Hs; cbn [run].
  - intros [= <-]. by exists s2.
  - destruct (exec l s1) as [s1''|] eqn:He; [|done].
    destruct (exec_same _ _ _ _ Hs He) as (s2'' & -> & Hs'). by apply IH.
Qed.

Lemma reset_schedule ls c ss ws nh tr s1 :
  In LFg ls -> run ls (State c ss FReset ws nh tr) = Some s1 ->
  exists s2, run (without_first_fg ls) (State c ss FStopCheck ws nh tr)
             = Some s2
    /\ same_controller s1 s2.
Proof.
  revert c ws nh tr; induction ls as [|l ls IH]; intros c ws nh tr;
    [done|].
  destruct l as [o| |t r]; cbn [run exec without_first_fg fg ctl sess workers
                                  next_handle trace fg_step].
  - done.
  - intros _. apply run_same. rewrite app_nil_r. by repeat split.
  - intros [|Hin]; [done|].
    destruct (ws !! t) as [w|]; [|done].
    destruct (worker_step _ _ _ _ _) as [[[[p' c'] nh'] evs]|]; [|done].
    by apply IH.
Qed.

End ResetFrame.

Section Runs.
Import Speech App Scenarios Frame.

Ltac unfold_script :=
  unfold run_script, script, start, select_mode, reset_button, text_mode,
    voice_mode, show_query, show_response, footer, reset_app, answer, when,
    set_chat_response, set_user_input, set_is_speaking, bump_key;
  cbv [mbind Script_bind bind emit get set_mode set_vars controller lift rerun
       ret mret Script_ret];
  cbn [store out vars current_mode chat_response user_input ss_is_speaking
       input_text_key negb mode_differs fst snd radio reset_all text_input
       send clear_input start_recording speak_response stop_speaking].

Ltac in_log :=
  cbn; split; try done; intros H;
  repeat (destruct H as [H|H]; try done); tauto.

(** X13: A run in which nothing was clicked and the mode is that of the run
    before changes no session variable and calls nothing; it offers the
    stop button exactly when a response is held and the session's
    [is_speaking] is set. *)
Theorem idle_run_changes_nothing w e a :
  current_mode a = Some (radio w) ->
  reset_all w = false -> send w && truthy (text_input w) = false ->
  clear_input w = false -> start_recording w = false ->
  speak_response w = false -> stop_speaking w = false ->
  exists log, run_script w e (Some a) = (Go tt, World a log)
    /\ calls log = []
    /\ (In (Render StopSpeaking) log <->
        truthy (chat_response (vars a)) && ss_is_speaking (vars a) = true).
Proof.
  destruct w as [m rs ti sd cl sr sp st], a as [cm [cr ui fl k]].
  cbn. intros -> -> Hs -> -> -> ->.
  destruct m; unfold_script; rewrite ?Hs;
  destruct cr as [|c cr], ui as [|u ui], fl; cbn; eexists;
    (split; [reflexivity|]); (split; [reflexivity|]); in_log.
Qed.

(** X14: A run whose selected mode differs from that of the run before, with
    nothing else clicked, empties query and response, clears the
    session's [is_speaking], advances the input key and calls [stop]
    once, also when that call raises; it shows neither query nor
    response. *)
Theorem mode_switch_resets w e a :
  mode_differs (radio w) (current_mode a) = true ->
  reset_all w = false -> send w && truthy (text_input w) = false ->
  clear_input w = false -> start_recording w = false ->
  exists log,
    run_script w e (Some a)
    = (match controller_call e 0 OpStop with
       | Ret _ => Go tt
       | Raise x => Halt (Crash x)
       end,
       World (SessionState (Some (radio w))
                (Session [] [] false (input_text_key (vars a) + 1))) log)
    /\ calls log = [OpStop]
    /\ forall s, ~ In (Markdown s) log.
Proof.
  destruct w as [m rs ti sd cl sr sp st], a as [cm [cr ui fl k]].
  cbn. intros Hd -> Hs -> ->.
  destruct m; unfold_script; cbn in Hd; rewrite ?Hd; rewrite ?Hs;
    cbn; destruct (controller_call e 0 OpStop); cbn; eexists;
    (split; [reflexivity|]); (split; [reflexivity|]);
    intros s H; cbn in H; repeat (destruct H as [H|H]; try done).
Qed.

(** X15: "Clear input" advances the input key and reruns at once: query,
    response and the session's [is_speaking] stay, nothing below the form
    is rendered and the controller is not called. *)
Theorem clear_input_bumps_key w e a :
  radio w = Text -> current_mode a = Some Text ->
  reset_all w = false -> send w && truthy (text_input w) = false ->
  clear_input w = true ->
  exists log,
    run_script w e (Some a)
    = (Halt Rerun,
       World (SessionState (Some Text)
                (Session (chat_response (vars a)) (user_input (vars a))
                         (ss_is_speaking (vars a))
                         (input_text_key (vars a) + 1))) log)
    /\ calls log = []
    /\ last log = Some (Render ClearInput).
Proof.
  destruct w as [m rs ti sd cl sr sp st], a as [cm [cr ui fl k]].
  cbn. intros -> -> -> Hs ->. unfold_script. rewrite Hs. cbn.
  eexists. by repeat split.
Qed.

(** X16: A text query whose generation call raises is answered with the error
    text: the run stores ["Error: "] and the exception text as the
    response, shows it as the assistant's answer and offers to speak
    it. *)
Theorem backend_error_shown_as_answer w e a x :
  radio w = Text -> current_mode a = Some Text ->
  reset_all w = false -> send w = true -> truthy (text_input w) = true ->
  clear_input w = false -> speak_response w = false ->
  stop_speaking w = false ->
  model e (Chat.paragraph_prompt (text_input w)) Chat.config = Raise x ->
  exists log,
    run_script w e (Some a)
    = (Go tt,
       World (SessionState (Some Text)
                (Session (lit "Error: " ++ exn_str x) (text_input w)
                         (ss_is_speaking (vars a))
                         (input_text_key (vars a)))) log)
    /\ In (Markdown (lit "**Assistant:** " ++ lit "Error: " ++ exn_str x)) log
    /\ In (Render SpeakResponse) log
    /\ calls log = [].
Proof.
  destruct w as [m rs ti sd cl sr sp st], a as [cm [cr ui fl k]].
  cbn. intros -> -> -> -> Ht -> -> -> Hm. unfold_script. rewrite Ht.
  unfold Chat.get_chatbot_response. rewrite Hm. cbn.
  destruct ti as [|c ti]; [done|].
  destruct fl; cbn; eexists; (split; [reflexivity|]); cbn; tauto.
Qed.

Lemma capture_failure {audio} (adjust : N -> outcome unit)
    (listen : N -> N -> outcome audio) (recognize : audio -> outcome str)
    x log0 :
  Voice.recognised adjust listen recognize = Raise x ->
  let res := Voice.get_voice_input audio (Ret tt) adjust listen recognize
               log0 in
  res.1 = Ret None
  /\ last res.2 = Some (Voice.StError (Voice.failure_msg x)).
Proof.
  unfold Voice.recognised, Voice.get_voice_input.
  cbv [mbind Voice.M_bind Voice.bind Voice.call Voice.show Voice.try_with
       Voice.ret obind].
  intros Hx.
  destruct (adjust 1%N) as [[]|x1];
    [|injection Hx as ->; split; by apply on_error_result].
  destruct (listen 5%N 35%N) as [au|x1];
    [|injection Hx as ->; split; by apply on_error_result].
  destruct (recognize au) as [text|x1]; [done|].
  injection Hx as ->. split; by apply on_error_result.
Qed.

(** X17: A recording that fails inside the [try] of [get_voice_input] changes
    no session variable and calls nothing: the run goes on to render what
    was there, with the error as the last status shown. *)
Theorem failed_recording_changes_nothing w e a x :
  radio w = Voice -> current_mode a = Some Voice ->
  reset_all w = false -> start_recording w = true ->
  speak_response w = false -> stop_speaking w = false ->
  microphone_enter e = Ret tt ->
  Voice.recognised (adjust_for_ambient_noise e) (listen e)
                   (recognize_google e) = Raise x ->
  exists log,
    run_script w e (Some a) = (Go tt, World a log)
    /\ calls log = []
    /\ In (Status (Voice.StError (Voice.failure_msg x))) log.
Proof.
  destruct w as [m rs ti sd cl sr sp st], a as [cm [cr ui fl k]].
  destruct e as [md au mic adj lis rec cc].
  cbn. intros -> -> -> -> -> -> -> Hx.
  destruct (capture_failure adj lis rec x [] Hx) as [H1 H2].
  unfold_script. unfold voice.
  cbn [audio microphone_enter adjust_for_ambient_noise listen
       recognize_google].
  destruct (Voice.get_voice_input au (Ret tt) adj lis rec []) as [r log].
  cbn [fst snd] in H1, H2. subst r.
  assert (In (Status (Voice.StError (Voice.failure_msg x)))
             (map Status log)) as Hin.
  { apply in_map. rewrite last_Some in H2. destruct H2 as [l' ->].
    apply in_or_app. right. by left. }
  unfold lift. cbn [store out].
  destruct cr as [|c cr], ui as [|u ui], fl; cbn; eexists;
    (split; [reflexivity|]);
    (split; [cbn [calls]; by rewrite ?calls_app, ?calls_status|]);
    cbn [In]; rewrite ?in_app_iff; tauto.
Qed.

(** X18: On the controller, the workers and the engines [reset_app] acts
    as [stop] does, under every interleaving with the workers: a schedule
    of [reset_app] that has run its writes to the session variables ends
    as the same schedule of [stop] without that statement, the session
    variables apart.  Run on its own it leaves the session variables the
    script's [reset_app] leaves, which calls the controller once, with
    [stop]. *)
Theorem reset_app_is_stop_on_controller s e cm log :
  fg s = FIdle ->
  (forall ls s1,
      In LFg ls -> run (LCall OpReset :: ls) s = Some s1 ->
      exists s2, run (LCall OpStop :: without_first_fg ls) s = Some s2
        /\ same_controller s1 s2)
  /\ exists s1 s2,
       perform OpReset s = Some s1 /\ perform OpStop s = Some s2
       /\ ctl s1 = ctl s2 /\ workers s1 = workers s2 /\ trace s1 = trace s2
       /\ sess s2 = sess s
       /\ sess s1
          = vars (store (reset_app e (World (SessionState cm (sess s)) log)).2)
       /\ calls (out (reset_app e (World (SessionState cm (sess s)) log)).2)
          = calls log ++ [OpStop].
Proof.
  intros Hfg. split.
  { intros ls s1 Hin. cbn [run exec]. rewrite Hfg. cbn [entry].
    by apply reset_schedule. }
  destruct s as [[en st sp] ss p ws nh tr]. cbn in Hfg. subst p.
  assert (calls (out (reset_app e (World (SessionState cm ss) log)).2)
          = calls log ++ [OpStop]) as Hc.
  { unfold_script. cbn. destruct (controller_call _ _ _); cbn;
      by rewrite calls_app. }
  assert (vars (store (reset_app e (World (SessionState cm ss) log)).2)
          = Session [] [] false (input_text_key ss + 1)) as Hv.
  { unfold_script. cbn. by destruct (controller_call _ _ _). }
  destruct sp, en as [h|]; cbn -[reset_app]; do 2 eexists;
    (split; [reflexivity|]); (split; [reflexivity|]);
    cbn -[reset_app]; rewrite ?app_nil_r, Hc, Hv; done.
Qed.

(** X19: "Speak Response" calls [speak] once, with the response on the page;
    when the call returns the session's [is_speaking] is set and the stop
    button is rendered in the same run. *)
Theorem speak_click_calls_speak w e a :
  current_mode a = Some (radio w) ->
  reset_all w = false -> send w && truthy (text_input w) = false ->
  clear_input w = false -> start_recording w = false ->
  truthy (chat_response (vars a)) = true ->
  speak_response w = true -> stop_speaking w = false ->
  controller_call e 0 (OpSpeak (chat_response (vars a))) = Ret tt ->
  exists log,
    run_script w e (Some a)
    = (Go tt,
       World (SessionState (current_mode a)
                (Session (chat_response (vars a)) (user_input (vars a)) true
                         (input_text_key (vars a)))) log)
    /\ calls log = [OpSpeak (chat_response (vars a))]
    /\ In (Render StopSpeaking) log.
Proof.
  destruct w as [m rs ti sd cl sr sp st], a as [cm [cr ui fl k]].
  cbn. intros -> -> Hs -> -> Ht -> -> Hc.
  destruct cr as [|c cr]; [done|].
  destruct m; unfold_script; rewrite ?Hs; cbn;
    destruct ui as [|u ui]; cbn; rewrite Hc; cbn; eexists;
    (split; [reflexivity|]); (split; [reflexivity|]); cbn; tauto.
Qed.

(** X20: "Stop Speaking", offered while the session's [is_speaking] is set and
    a response is held, calls [stop] once; when the call returns the flag
    is cleared and the script reruns. *)
Theorem stop_click_calls_stop w e a :
  current_mode a = Some (radio w) ->
  reset_all w = false -> send w && truthy (text_input w) = false ->
  clear_input w = false -> start_recording w = false ->
  truthy (chat_response (vars a)) = true ->
  ss_is_speaking (vars a) = true ->
  speak_response w = false -> stop_speaking w = true ->
  controller_call e 0 OpStop = Ret tt ->
  exists log,
    run_script w e (Some a)
    = (Halt Rerun,
       World (SessionState (current_mode a)
                (Session (chat_response (vars a)) (user_input (vars a)) false
                         (input_text_key (vars a)))) log)
    /\ calls log = [OpStop].
Proof.
  destruct w as [m rs ti sd cl sr sp st], a as [cm [cr ui fl k]].
  cbn. intros -> -> Hs -> -> Ht -> -> -> Hc.
  destruct cr as [|c cr]; [done|].
  destruct m; unfold_script; rewrite ?Hs; cbn;
    destruct ui as [|u ui]; cbn; rewrite Hc; cbn; eexists;
    by (split; [reflexivity|]).
Qed.

(** X21: "Reset All" empties query and response, clears the session's
    [is_speaking], advances the input key, calls [stop] and reruns
    without rendering anything below the button. *)
Theorem reset_all_click w e a :
  current_mode a = Some (radio w) -> reset_all w = true ->
  exists log,
    run_script w e (Some a)
    = (match controller_call e 0 OpStop with
       | Ret _ => Halt Rerun
       | Raise x => Halt (Crash x)
       end,
       World (SessionState (current_mode a)
                (Session [] [] false (input_text_key (vars a) + 1))) log)
    /\ calls log = [OpStop]
    /\ last log = Some (Call OpStop).
Proof.
  destruct w as [m rs ti sd cl sr sp st], a as [cm [cr ui fl k]].
  cbn. intros -> ->.
  destruct m; unfold_script; cbn; destruct (controller_call e 0 OpStop);
    cbn; eexists; by repeat split.
Qed.

Lemma capture_success {audio} (adjust : N -> outcome unit)
    (listen : N -> N -> outcome audio) (recognize : audio -> outcome str)
    text log0 :
  Voice.recognised adjust listen recognize = Ret text ->
  (Voice.get_voice_input audio (Ret tt) adjust listen recognize log0).1
  = Ret (Some text).
Proof.
  unfold Voice.recognised, Voice.get_voice_input.
  cbv [mbind Voice.M_bind Voice.bind Voice.call Voice.show Voice.try_with
       Voice.ret obind].
  intros Hx.
  destruct (adjust 1%N) as [[]|x1]; [|done].
  destruct (listen 5%N 35%N) as [au|x1]; [|done].
  destruct (recognize au) as [t|x1]; [|done]. by injection Hx as ->.
Qed.

(** X22: A recognised utterance is answered as the same text typed and sent:
    both runs leave the same query, response, flag and key. *)
Theorem spoken_query_answered_as_typed wv wt e v text :
  radio wv = Voice -> reset_all wv = false -> start_recording wv = true ->
  speak_response wv = false -> stop_speaking wv = false ->
  radio wt = Text -> reset_all wt = false -> send wt = true ->
  text_input wt = text -> clear_input wt = false ->
  speak_response wt = false -> stop_speaking wt = false ->
  microphone_enter e = Ret tt ->
  Voice.recognised (adjust_for_ambient_noise e) (listen e)
                   (recognize_google e) = Ret text ->
  truthy text = true ->
  vars (store (run_script wv e (Some (SessionState (Some Voice) v))).2)
  = vars (store (run_script wt e (Some (SessionState (Some Text) v))).2).
Proof.
  destruct wv as [mv rsv tiv sdv clv srv spv stv].
  destruct wt as [mt rst tit sdt clt srt spt stt].
  destruct e as [md au mic adj lis rec cc], v as [cr ui fl k].
  cbn. intros -> -> -> -> -> -> -> -> -> -> -> -> -> Hx Ht.
  pose proof (capture_success adj lis rec text [] Hx) as H1.
  unfold_script. unfold voice.
  cbn [audio microphone_enter adjust_for_ambient_noise listen
       recognize_google model].
  destruct (Voice.get_voice_input au (Ret tt) adj lis rec []) as [r log].
  cbn [fst] in H1. subst r. unfold lift. rewrite Ht. cbn [store out andb].
  destruct (Chat.get_chatbot_response md text) as [r|x]; cbn.
  2: done.
  destruct r as [|c r], fl; cbn; rewrite ?Ht; by cbn.
Qed.

End Runs.

(* ===================================================================== *)
(** ** Sample runs *)
(* ===================================================================== *)

Section Samples.
Import Speech App Scenarios Frame.

Lemma speak_never_given_blank_witness :
  blank (lit "Hello there") = false.
Proof.
  apply (speak_never_given_blank
           [(no_click Text, sample_env); (click_send, sample_env);
            (click_speak, sample_env)]
           (out (run_script click_speak sample_env
                            (Some (SessionState (Some Text)
                                     (Session (lit "Hello there") (lit "hi")
                                              false 1)))).2)).
  - vm_compute. right. right. by left.
  - vm_compute. by left.
Defined.

Lemma idle_run_changes_nothing_witness :
  exists log, run_script (no_click Text) sample_env (Some (answered Text))
              = (Go tt, World (answered Text) log)
    /\ calls log = [] /\ In (Render StopSpeaking) log.
Proof.
  destruct (idle_run_changes_nothing (no_click Text) sample_env
              (answered Text) eq_refl eq_refl eq_refl eq_refl eq_refl
              eq_refl eq_refl) as (log & H1 & H2 & H3).
  exists log. exact (conj H1 (conj H2 (proj2 H3 eq_refl))).
Defined.

Lemma mode_switch_resets_witness :
  exists log, run_script (no_click Voice) sample_env (Some (answered Text))
              = (Go tt, World (SessionState (Some Voice)
                                 (Session [] [] false 2)) log)
    /\ calls log = [OpStop].
Proof.
  destruct (mode_switch_resets (no_click Voice) sample_env (answered Text)
              eq_refl eq_refl eq_refl eq_refl eq_refl)
    as (log & H1 & H2 & _).
  exists log. exact (conj H1 H2).
Defined.

Lemma clear_input_bumps_key_witness :
  exists log, run_script click_clear sample_env (Some (answered Text))
              = (Halt Rerun,
                 World (SessionState (Some Text)
                          (Session (lit "Hello there") (lit "hi") true 2))
                       log)
    /\ calls log = [].
Proof.
  destruct (clear_input_bumps_key click_clear sample_env (answered Text)
              eq_refl eq_refl eq_refl eq_refl eq_refl)
    as (log & H1 & H2 & _).
  exists log. exact (conj H1 H2).
Defined.

Lemma backend_error_shown_as_answer_witness :
  exists log, run_script click_send failing_env
                (Some (SessionState (Some Text) new_session))
              = (Go tt,
                 World (SessionState (Some Text)
                          (Session (lit "Error: 503") (lit "hi") false 0))
                       log)
    /\ In (Markdown (lit "**Assistant:** Error: 503")) log.
Proof.
  destruct (backend_error_shown_as_answer click_send failing_env
              (SessionState (Some Text) new_session)
              (Exn OtherError (lit "503"))
              eq_refl eq_refl eq_refl eq_refl eq_refl eq_refl eq_refl
              eq_refl eq_refl)
    as (log & H1 & H2 & _).
  exists log. exact (conj H1 H2).
Defined.

Lemma failed_recording_changes_nothing_witness :
  exists log, run_script click_record silent_env (Some (answered Voice))
              = (Go tt, World (answered Voice) log)
    /\ calls log = []
    /\ In (Status (Voice.StError Voice.no_speech_msg)) log.
Proof.
  exact (failed_recording_changes_nothing click_record silent_env
           (answered Voice) (Exn WaitTimeoutError [])
           eq_refl eq_refl eq_refl eq_refl eq_refl eq_refl eq_refl eq_refl).
Defined.

Lemma reset_app_is_stop_on_controller_witness :
  exists s0 s1 s2,
    run playing initial = Some s0
    /\ is_speaking (ctl s0) = true /\ engine (ctl s0) = Some 0
    /\ run (LCall OpReset :: reset_while_playing) s0 = Some s1
    /\ run (LCall OpStop :: without_first_fg reset_while_playing) s0 = Some s2
    /\ same_controller s1 s2
    /\ ctl s1 = Controller None (Some 0) false
    /\ trace s1 = [EvInit 0 0; EvSetProperty 0 150; EvSay 0 (lit "hi");
                   EvStop 0; EvRunAndWait 0]
    /\ sess s1 = Session [] [] false 1.
Proof.
  eexists. eexists.
  match goal with
  | |- exists s2, run playing initial = Some ?s0 /\ _ /\ _
                  /\ run ?ls ?s0 = Some ?s1 /\ _ =>
      assert (run playing initial = Some s0) as H0
        by (vm_compute; reflexivity);
      assert (run ls s0 = Some s1) as H1 by (vm_compute; reflexivity);
      destruct (proj1 (reset_app_is_stop_on_controller s0 sample_env None
                         [] eq_refl)
                  reset_while_playing s1
                  ltac:(by left) H1) as (s2 & H2 & Hsame)
  end.
  exists s2. split; [exact H0|]. do 2 (split; [reflexivity|]).
  split; [exact H1|]. split; [exact H2|]. split; [exact Hsame|].
  by repeat split.
Defined.

Lemma speak_click_calls_speak_witness :
  exists log, run_script click_speak sample_env (Some unspoken)
              = (Go tt,
                 World (SessionState (Some Text)
                          (Session (lit "Hello there") (lit "hi") true 1))
                       log)
    /\ calls log = [OpSpeak (lit "Hello there")]
    /\ In (Render StopSpeaking) log.
Proof.
  exact (speak_click_calls_speak click_speak sample_env unspoken
           eq_refl eq_refl eq_refl eq_refl eq_refl eq_refl eq_refl eq_refl
           eq_refl).
Defined.

Lemma stop_click_calls_stop_witness :
  exists log, run_script click_stop sample_env (Some (answered Text))
              = (Halt Rerun,
                 World (SessionState (Some Text)
                          (Session (lit "Hello there") (lit "hi") false 1))
                       log)
    /\ calls log = [OpStop].
Proof.
  exact (stop_click_calls_stop click_stop sample_env (answered Text)
           eq_refl eq_refl eq_refl eq_refl eq_refl eq_refl eq_refl eq_refl
           eq_refl eq_refl).
Defined.

Lemma reset_all_click_witness :
  exists log, run_script click_reset sample_env (Some (answered Text))
              = (Halt Rerun,
                 World (SessionState (Some Text) (Session [] [] false 2)) log)
    /\ calls log = [OpStop]
    /\ last log = Some (Call OpStop).
Proof.
  exact (reset_all_click click_reset sample_env (answered Text)
           eq_refl eq_refl).
Defined.

Lemma spoken_query_answered_as_typed_witness :
  vars (store (run_script click_record sample_env
                 (Some (SessionState (Some Voice) new_session))).2)
  = vars (store (run_script click_send_question sample_env
                   (Some (SessionState (Some Text) new_session))).2).
Proof.
  exact (spoken_query_answered_as_typed click_record click_send_question
           sample_env new_session (lit "what time is it")
           eq_refl eq_refl eq_refl eq_refl eq_refl eq_refl eq_refl eq_refl
           eq_refl eq_refl eq_refl eq_refl eq_refl eq_refl eq_refl).
Defined.

Lemma clean_only_deletes_witness :
  length (Chat.clean (lit "- a")) <= 3.
Proof. exact (proj1 (clean_only_deletes (lit "- a"))). Defined.


Lemma stop_returns_with_flag_false_witness :
  exists s s',
    run (one_speak ++ [LWk 0 None; LWk 0 None; LCall OpStop; LFg; LFg; LFg;
                       LFg]) initial = Some s
    /\ is_speaking (ctl s) = true
    /\ exec LFg s = Some s'
    /\ is_speaking (ctl s') = false.
Proof.
  eexists. eexists. split; [vm_compute; reflexivity|].
  split; [reflexivity|].
  match goal with
  | |- exec LFg ?s0 = _ /\ _ =>
      split; [vm_compute; reflexivity
             | apply (stop_returns_with_flag_false s0); reflexivity]
  end.
Defined.

End Samples.
